(** * mesh-messager-core: a Chord node, embedded from the TypeScript source

    The development follows the source files:
    - [Interval]   : [assembly/interval.ts]  ([withinInterval]);
    - [Js]         : the few JavaScript value conventions the node relies on
                     (truthiness of [bigint | undefined], [indexOf]/[splice],
                     [Set] de-duplication, [sort] with a comparator, [%]);
    - [Chord]      : the latest revision of [node.ts] (the one that carries
                     [successorList] and [dead]), with the transport
                     ([communication.ts]) as an oracle and asynchronous
                     methods written in a small state/trace/exception monad;
    - [Earlier]    : [stabilize] of the previous revision of [node.ts];
    - [Lifecycle]  : [startLifecycle] / [stopLifecycle] as a transition system
                     over the three maintenance timers;
    - [Scenario]   : two small rings used as concrete inputs;
    - [Overlay]    : the histories of one node (constructor followed by any
                     sequence of its methods) and what they keep.

    Ids are JavaScript [bigint]s, hence [Z]; arrays are lists; the
    [storage] object is a [gmap string _]. *)

From stdpp Require Import base numbers list strings gmap sorting.
From Stdlib Require Import ZArith Lia.

Local Open Scope Z_scope.

(* ===================================================================== *)
(** ** assembly/interval.ts *)
(* ===================================================================== *)

Module Interval.

(** [interface Interval<T>], used at [T = bigint].  The optional flags
    [includeStart?] / [includeEnd?] are only ever tested for truthiness, so
    an absent flag is [false]. *)
Record Interval : Type := mkInterval {
  start : Z;
  end_ : Z;
  includeStart : bool;
  includeEnd : bool
}.

(** Object literals of the source: [{ start, end }] and
    [{ start, end, includeEnd: true }]. *)
Definition open_ (s e : Z) : Interval := mkInterval s e false false.
Definition openClosed (s e : Z) : Interval := mkInterval s e false true.

Definition withinInterval (value : Z) (interval : Interval) : bool :=
  (if includeStart interval
   then start interval <=? value
   else start interval <? value)
  &&
  (if includeEnd interval
   then value <=? end_ interval
   else value <? end_ interval).

End Interval.
Export Interval.

(* ===================================================================== *)
(** ** JavaScript conventions used by node.ts *)
(* ===================================================================== *)

Module Js.

(** Truthiness of a value of type [bigint | undefined]: [undefined] and
    [0n] are falsy, every other bigint is truthy. *)
Definition truthy (v : option Z) : bool :=
  match v with
  | None => false
  | Some z => negb (z =? 0)
  end.

(** [a || b] where [a : bigint | undefined] and [b : bigint]. *)
Definition orElse (a : option Z) (b : Z) : Z :=
  match a with
  | Some z => if z =? 0 then b else z
  | None => b
  end.

(** [Array.prototype.indexOf]; [-1] is [None]. *)
Fixpoint indexOf (l : list Z) (x : Z) : option nat :=
  match l with
  | [] => None
  | y :: r => if y =? x then Some 0%nat else S <$> indexOf r x
  end.

(** [Array.prototype.includes]. *)
Definition includes (l : list Z) (x : Z) : bool :=
  match indexOf l x with Some _ => true | None => false end.

(** [const index = l.indexOf(x); if (index !== -1) l.splice(index, 1);] *)
Definition spliceOut (l : list Z) (x : Z) : list Z :=
  match indexOf l x with
  | Some index => delete index l
  | None => l
  end.

(** [Array.from(new Set(l))]: insertion order, first occurrence kept. *)
Definition setAdd (acc : list Z) (x : Z) : list Z :=
  if includes acc x then acc else acc ++ [x].

Definition arrayFromSet (l : list Z) : list Z := fold_left setAdd l [].

(** [Array.prototype.sort(compareFn)].  The engine's algorithm is not fixed
    by the language, but it is stable and, for a comparator that is a total
    order on the elements sorted, every algorithm yields the same array;
    the stable insertion sort below is that array.  [compareFn a b < 0]
    places [a] before [b]. *)
Fixpoint insertBy (cmp : Z -> Z -> Z) (x : Z) (l : list Z) : list Z :=
  match l with
  | [] => [x]
  | y :: r => if cmp x y <=? 0 then x :: y :: r else y :: insertBy cmp x r
  end.

Definition sortBy (cmp : Z -> Z -> Z) (l : list Z) : list Z :=
  foldr (insertBy cmp) [] l.

(** lodash [findLastIndex]; [-1] is [None]. *)
Fixpoint findLastIndex {A : Type} (p : A -> bool) (l : list A) : option nat :=
  match l with
  | [] => None
  | x :: r =>
      match findLastIndex p r with
      | Some i => Some (S i)
      | None => if p x then Some 0%nat else None
      end
  end.

(** A JavaScript [number] used as a loop counter: an integer or [NaN]. *)
Inductive Number : Type :=
| Num (z : Z)
| NaN.

(** [a % b] on integer-valued numbers: the sign follows the dividend, and
    a zero divisor gives [NaN]. *)
Definition rem (a b : Z) : Number :=
  if b =? 0 then NaN else Num (Z.rem a b).

End Js.

(* ===================================================================== *)
(** ** node.ts: state of a node and its synchronous methods *)
(* ===================================================================== *)

Module Chord.
Import Js.

(** [type Id = bigint]. *)
Abbreviation Id := Z (only parsing).

Definition KEY_BITS : nat := 8.

(** [Math.ceil(Math.log(KEY_BITS))]: the natural logarithm of 8 is
    2.079..., so the cap is 3. *)
Definition MAX_SUCCESSORS_LIST_LENGTH : nat := 3.

Record FingerEntity : Type := mkFinger {
  key : Id;
  nodeId : Id
}.

(** [type StoragePiece = object]: opaque to the node, kept as its fields. *)
Definition StoragePiece : Type := list (string * string).

(** The fields of [class Node] that make up the overlay state.  [comm] is
    the transport oracle below; the generator [fixFingers] and the
    lifecycle fields have their own state further down. *)
Record Node : Type := mkNode {
  id : Id;
  _successor : Id;
  _predecessor : option Id;
  successorList : list Id;
  fingers : list FingerEntity;
  storage : gmap string StoragePiece;
  dead : bool;
  logging : bool
}.

(** Field assignments. *)
Definition with_successor (this : Node) (v : Id) : Node :=
  mkNode (id this) v (_predecessor this) (successorList this)
         (fingers this) (storage this) (dead this) (logging this).
Definition with_predecessor (this : Node) (v : option Id) : Node :=
  mkNode (id this) (_successor this) v (successorList this)
         (fingers this) (storage this) (dead this) (logging this).
Definition withSuccessorList (this : Node) (v : list Id) : Node :=
  mkNode (id this) (_successor this) (_predecessor this) v
         (fingers this) (storage this) (dead this) (logging this).
Definition withFingers (this : Node) (v : list FingerEntity) : Node :=
  mkNode (id this) (_successor this) (_predecessor this) (successorList this)
         v (storage this) (dead this) (logging this).
Definition withDead (this : Node) (v : bool) : Node :=
  mkNode (id this) (_successor this) (_predecessor this) (successorList this)
         (fingers this) (storage this) v (logging this).
Definition setLogging (val : bool) (this : Node) : Node :=
  mkNode (id this) (_successor this) (_predecessor this) (successorList this)
         (fingers this) (storage this) (dead this) val.

(** [get successor()] and [get predecessor()]. *)
Definition successor (this : Node) : Id := _successor this.
Definition predecessor (this : Node) : option Id := _predecessor this.

(** The expression [this.successor === this.id && !this.predecessor] that
    both setters store into [dead]. *)
Definition isDead (this : Node) : bool :=
  (successor this =? id this) && negb (truthy (predecessor this)).

(** The comparator handed to [sort] in [updateSuccesorsList]. *)
Definition compareSuccessors (selfId n1 n2 : Id) : Z :=
  let n1Next := n1 >? selfId in
  let n2Next := n2 >? selfId in
  if (n1Next && n2Next) || (negb n1Next && negb n2Next)
  then (if n1 - n2 >=? 0 then 1 else -1)
  else if n1Next && negb n2Next then -1 else 1.

Definition updateSuccesorsList (newList : list Id) (this : Node) : Node :=
  withSuccessorList this
    (take MAX_SUCCESSORS_LIST_LENGTH
       (sortBy (compareSuccessors (id this))
          (arrayFromSet (newList ++ successorList this)))).

(** [set successor(succ)] (the [console.log] is not state). *)
Definition set_successor (succ : Id) (this : Node) : Node :=
  let this := withSuccessorList this
                (spliceOut (successorList this) (_successor this)) in
  let this := with_successor this succ in
  let this := withDead this (isDead this) in
  if negb (includes (successorList this) succ)
  then updateSuccesorsList [succ] this
  else this.

(** [set predecessor(pred)]. *)
Definition set_predecessor (pred : option Id) (this : Node) : Node :=
  let this := with_predecessor this pred in
  withDead this (isDead this).

Definition getBestSuccessor (this : Node) : Id :=
  orElse (head (successorList this)) (id this).

Definition getClosestPrecedingNode (this : Node) (k : Id) : Id :=
  match findLastIndex
          (fun f => withinInterval (nodeId f) (open_ (id this) k))
          (fingers this) with
  | None => id this
  | Some fingerIndex =>
      match fingers this !! fingerIndex with
      | Some f => nodeId f
      | None => id this (* not reached: the index comes from the array *)
      end
  end.

(** [%] on bigints truncates towards zero, like [Z.rem]. *)
Definition generateFingerId (selfId : Id) (fingerIndex : nat) : Id :=
  Z.rem (selfId + 2 ^ Z.of_nat fingerIndex) (2 ^ Z.of_nat KEY_BITS).

(** Modelled from the spec: [shell] of [assembly/utility], which is not
    among the sources; section 3 fixes [fingers] to [M] entries, one per
    index [i] in [[0, M)], so [shell(length)] is an array of [length]
    placeholders to be mapped over. *)
Definition shell (length : nat) : list unit := replicate length tt.

Definition createFingerTable (selfId : Id) : list FingerEntity :=
  imap (fun i _ => mkFinger (generateFingerId selfId i) selfId)
       (shell KEY_BITS).

(** [new Node(comm, id, successor = id)]: the constructor writes
    [_successor] directly, and the field initialisers give
    [successorList = []], [dead = false], [logging = true]. *)
Definition new (selfId : Id) (succ : option Id) : Node :=
  mkNode selfId (default selfId succ) None []
         (createFingerTable selfId) ∅ false true.

(** [notify(id)]. *)
Definition notify (x : Id) (this : Node) : Node :=
  if negb (truthy (predecessor this))
     || match predecessor this with
        | Some p => withinInterval x (open_ p (id this))
        | None => false (* not reached: [||] has already succeeded *)
        end
  then set_predecessor (Some x) this
  else this.

(* ------------------------------------------------------------------- *)
(** *** communication.ts: the transport, and asynchronous methods *)
(* ------------------------------------------------------------------- *)

(** [enum RequestType] with the payload of [RequestData]. *)
Inductive Request : Type :=
| FindSuccessorForId (k : Id)
| GetSuccessorId
| GetStorageValue (k : string)
| GetPredecessor
| Notify (k : Id)
| Ping
| GetSuccessorsList.

(** One outgoing call: the target it is addressed to and the request. *)
Definition Call : Type := (Id * Request)%type.

(** [type Communication]: one function per request type, taking the
    requester, the target and the payload.  The promise it returns either
    resolves with the response ([Some]) or rejects ([None]). *)
Record Communication : Type := mkComm {
  commFindSuccessorForId : Node -> Id -> Id -> option Id;
  commGetSuccessorId : Node -> Id -> option Id;
  commGetStorageValue : Node -> Id -> string -> option StoragePiece;
  commGetPredecessor : Node -> Id -> option (option Id);
  commNotify : Node -> Id -> Id -> option unit;
  commPing : Node -> Id -> option unit;
  commGetSuccessorsList : Node -> Id -> option (list Id)
}.

(** How a method body completes. *)
Inductive Completion (A : Type) : Type :=
| Return (a : A)
| Throw.
Arguments Return {A} a.
Arguments Throw {A}.

(** An asynchronous method: from the node's state to a completion, the new
    state and the calls sent, in order.  A method runs to completion here;
    what other handlers do to the node while it awaits is outside this
    model. *)
Definition Async (A : Type) : Type := Node -> Completion A * Node * list Call.

Definition ret {A : Type} (a : A) : Async A := fun this => (Return a, this, []).

Definition throw {A : Type} : Async A := fun this => (Throw, this, []).

Definition bind {A B : Type} (m : Async A) (f : A -> Async B) : Async B :=
  fun this =>
    let '(r, this1, sent1) := m this in
    match r with
    | Return a =>
        let '(r2, this2, sent2) := f a this1 in (r2, this2, sent1 ++ sent2)
    | Throw => (Throw, this1, sent1)
    end.

(** [try { m } catch (e) { h }]. *)
Definition tryCatch {A : Type} (m h : Async A) : Async A :=
  fun this =>
    let '(r, this1, sent1) := m this in
    match r with
    | Return a => (Return a, this1, sent1)
    | Throw => let '(r2, this2, sent2) := h this1 in (r2, this2, sent1 ++ sent2)
    end.

(** Read [this]; apply a synchronous mutation. *)
Definition self : Async Node := fun this => (Return this, this, []).
Definition update (f : Node -> Node) : Async unit :=
  fun this => (Return tt, f this, []).

(** [await this.comm[kind](this, target, data)]. *)
Definition await {A : Type} (target : Id) (req : Request)
           (answer : Node -> option A) : Async A :=
  fun this =>
    (match answer this with Some a => Return a | None => Throw end,
     this, [(target, req)]).

Notation "x <- m ;; k" := (bind m (fun x => k))
  (at level 100, m at next level, right associativity).
Notation "m ;;; k" := (bind m (fun _ => k))
  (at level 100, right associativity).

Definition completion {A : Type} (r : Completion A * Node * list Call) :=
  r.1.1.
Definition after {A : Type} (r : Completion A * Node * list Call) : Node :=
  r.1.2.
Definition sent {A : Type} (r : Completion A * Node * list Call) : list Call :=
  r.2.

Section Methods.
Variable comm : Communication.

Definition requestSuccessor (targetNode k : Id) : Async Id :=
  await targetNode (FindSuccessorForId k)
        (fun this => commFindSuccessorForId comm this targetNode k).

Definition findSuccessorForKey (k : Id) : Async Id :=
  this <- self ;;
  let within :=
    withinInterval k (openClosed (id this) (successor this)) in
  if within then ret (successor this)
  else
    let preNodeId := getClosestPrecedingNode this k in
    if preNodeId =? id this then ret (id this)
    else tryCatch (requestSuccessor preNodeId k) (ret (id this)).

Definition joinNode (targetNodeId : Id) : Async unit :=
  this <- self ;;
  r <- await targetNodeId (FindSuccessorForId (id this))
         (fun this => commFindSuccessorForId comm this targetNodeId (id this)) ;;
  update (set_successor r).

(** The [try] block of [stabilize]. *)
Definition stabilizeRound : Async unit :=
  this <- self ;;
  preId <- await (successor this) GetPredecessor
             (fun this => commGetPredecessor comm this (successor this)) ;;
  (match preId with
   | Some p =>
       if truthy preId
          && withinInterval p (open_ (id this) (successor this))
       then update (set_successor p)
       else ret tt
   | None => ret tt
   end) ;;;
  this <- self ;;
  await (successor this) (Notify (id this))
    (fun this => commNotify comm this (successor this) (id this)) ;;;
  this <- self ;;
  newSuccList <- await (successor this) GetSuccessorsList
                   (fun this => commGetSuccessorsList comm this (successor this)) ;;
  update (updateSuccesorsList newSuccList).

(** The [catch] block of [stabilize]. *)
Definition stabilizeFailed : Async unit :=
  update (fun this =>
            withSuccessorList this
              (spliceOut (successorList this) (successor this))) ;;;
  this <- self ;;
  update (set_successor (getBestSuccessor this)).

Definition stabilize : Async unit :=
  this <- self ;;
  if successor this =? id this then ret tt
  else tryCatch stabilizeRound stabilizeFailed.

(** [checkPredecessor]: the rejection of the ping is handled by
    [.catch], so the method itself never rejects. *)
Definition checkPredecessor : Async unit :=
  this <- self ;;
  match predecessor this with
  | Some p =>
      if truthy (predecessor this)
      then tryCatch (await p Ping (fun this => commPing comm this p))
                    (update (set_predecessor None))
      else ret tt
  | None => ret tt
  end.

(** One resumption of [fixFingersGenerator], from the loop head to the
    [yield]; [counter] is the generator's local variable and the result
    is its value at the [yield].  [BigInt(counter)] throws a RangeError on
    [NaN]; assigning [nodeId] on a missing array entry throws a
    TypeError once the awaited value is there. *)
Definition fixFingersStep (counter : Number) : Async Number :=
  match counter with
  | NaN => throw
  | Num c =>
      if c <? 0 then throw
      else
        this <- self ;;
        r <- findSuccessorForKey (id this + 2 ^ c) ;;
        this <- self ;;
        match fingers this !! Z.to_nat c with
        | None => throw
        | Some f =>
            update (fun this =>
                      withFingers this
                        (<[Z.to_nat c := mkFinger (key f) r]> (fingers this))) ;;;
            this <- self ;;
            ret (rem (c + 1) (Z.of_nat (length (fingers this)) - 1))
        end
  end.

End Methods.

(** [let counter = 0] at the top of the generator. *)
Definition fixFingersStart : Number := Num 0.

(** Successive resumptions of the generator, one transport per resumption
    (what the peers answer may change between ticks).  A resumption that
    throws ends the generator. *)
Fixpoint fixFingersRun (comms : list Communication) (counter : Number)
         (this : Node) : Completion Number * Node :=
  match comms with
  | [] => (Return counter, this)
  | comm :: rest =>
      match fixFingersStep comm counter this with
      | (Return counter', this', _) => fixFingersRun rest counter' this'
      | (Throw, this', _) => (Throw, this')
      end
  end.

(* ------------------------------------------------------------------- *)
(** *** Vocabulary for stating what a method does to the node *)
(* ------------------------------------------------------------------- *)

(** The fields that neither setter nor [updateSuccesorsList] writes. *)
Definition sameElsewhere (a b : Node) : Prop :=
  id a = id b /\ predecessor a = predecessor b /\ fingers a = fingers b
  /\ storage a = storage b /\ logging a = logging b.

(** Methods that write through the setters and [updateSuccesorsList]
    only. *)
Definition keeps {A : Type} (m : Async A) : Prop :=
  forall this, sameElsewhere (after (m this)) this.

(** Pre- and postconditions for a method: [Q] on return, [E] on throw. *)
Definition triple {A : Type} (P : Node -> Prop) (m : Async A)
           (Q : A -> Node -> Prop) (E : Node -> Prop) : Prop :=
  forall this, P this ->
    match completion (m this) with
    | Return a => Q a (after (m this))
    | Throw => E (after (m this))
    end.

(** [i] is this node's id and is not in its successor list. *)
Definition selfNotListed (i : Id) (this : Node) : Prop :=
  id this = i /\ i ∉ successorList this.

End Chord.

(* ===================================================================== *)
(** ** node.ts, earlier revision: stabilize *)
(* ===================================================================== *)

(** The revision of [node.ts] without [successorList] and [dead]: its setters
only assign, its singleton branch is the block that the later revision
comments out, and its failure branch falls back to the node itself.  Only
[stabilize] differs in a way that matters below; the record is shared and
the two later fields are simply never written. *)
Module Earlier.
Import Js Chord.

Section Methods.
Variable comm : Communication.

Definition stabilize : Async unit :=
  this <- self ;;
  if successor this =? id this then
    match predecessor this with
    | Some p =>
        if truthy (predecessor this)
        then tryCatch
               (r <- requestSuccessor comm p (id this) ;;
                update (fun this => with_successor this r))
               (update (fun this => with_predecessor this None))
        else ret tt
    | None => ret tt
    end
  else
    tryCatch
      (preId <- await (successor this) GetPredecessor
                  (fun this => commGetPredecessor comm this (successor this)) ;;
       (match preId with
        | Some p =>
            if truthy preId
               && withinInterval p (open_ (id this) (successor this))
            then update (fun this => with_successor this p)
            else ret tt
        | None => ret tt
        end) ;;;
       this <- self ;;
       await (successor this) (Notify (id this))
         (fun this => commNotify comm this (successor this) (id this)))
      (update (fun this => with_successor this (id this))).

End Methods.
End Earlier.

(* ===================================================================== *)
(** ** node.ts: startLifecycle / stopLifecycle *)
(* ===================================================================== *)

Module Lifecycle.

(** The keys of [lifecycleTimeouts]: one maintenance loop each. *)
Inductive Task : Type := Stab | Fing | Pred.

(** Where one loop [tickX] stands.  A loop alternates between awaiting its
    operation and waiting for the timer it armed afterwards. *)
Inductive Loop : Type :=
| Null       (* [lifecycleTimeouts.x] is still [null]: [tickX] never ran *)
| Awaiting   (* [tickX] is inside [await op()]; a stored handle has fired *)
| Armed      (* [setTimeout(tickX, period)] is pending, its handle stored *)
| Cleared    (* the pending timer was cancelled by [clearTimeout] *)
| Rejected.  (* [op()] rejected inside [tickX]: [setTimeout] is not reached *)

Record State : Type := mkState {
  lifecycleActive : bool;
  stab : Loop;
  fing : Loop;
  pred : Loop
}.

(** Field initialisers: [lifecycleActive = false], all handles [null]. *)
Definition initial : State := mkState false Null Null Null.

(** [startLifecycle]: the state after the call returns, and the loops whose
    first tick it has called. *)
Definition startLifecycle (s : State) : State * list Task :=
  if lifecycleActive s then (s, [])
  else (mkState true Awaiting Awaiting Awaiting, [Stab; Fing; Pred]).

(** [clearTimeout(t)] on one stored handle: only a pending timer is
    affected ([null] and handles that already fired are ignored). *)
Definition clearTimeout (l : Loop) : Loop :=
  match l with
  | Armed => Cleared
  | _ => l
  end.

(** [stopLifecycle]: [Object.values(lifecycleTimeouts).forEach(clearTimeout)]. *)
Definition stopLifecycle (s : State) : State :=
  mkState (lifecycleActive s)
          (clearTimeout (stab s)) (clearTimeout (fing s)) (clearTimeout (pred s)).

(** What the event loop and the callers can make happen. *)
Inductive Event : Type :=
| CallStart                (* someone calls [startLifecycle()] *)
| CallStop                 (* someone calls [stopLifecycle()] *)
| Resolved (t : Task)      (* the awaited operation of loop [t] resolves *)
| Failed (t : Task)        (* the awaited operation of loop [t] rejects *)
| Fired (t : Task).        (* the pending timer of loop [t] fires *)

Definition loop (t : Task) (s : State) : Loop :=
  match t with Stab => stab s | Fing => fing s | Pred => pred s end.

Definition setLoop (t : Task) (l : Loop) (s : State) : State :=
  match t with
  | Stab => mkState (lifecycleActive s) l (fing s) (pred s)
  | Fing => mkState (lifecycleActive s) (stab s) l (pred s)
  | Pred => mkState (lifecycleActive s) (stab s) (fing s) l
  end.

(** One event; an event that is not enabled leaves the state alone. *)
Definition step (s : State) (e : Event) : State :=
  match e with
  | CallStart => (startLifecycle s).1
  | CallStop => stopLifecycle s
  | Resolved t =>
      match loop t s with Awaiting => setLoop t Armed s | _ => s end
  | Failed t =>
      match loop t s with Awaiting => setLoop t Rejected s | _ => s end
  | Fired t =>
      match loop t s with Armed => setLoop t Awaiting s | _ => s end
  end.

Definition run (s : State) (evs : list Event) : State := fold_left step evs s.

(** A loop is live while it will still run a tick by itself. *)
Definition live (l : Loop) : bool :=
  match l with
  | Awaiting | Armed => true
  | _ => false
  end.

End Lifecycle.

(* ===================================================================== *)
(** ** Small rings used as concrete inputs *)
(* ===================================================================== *)

Module Scenario.
Import Js Chord.

(** A transport on which no peer can be reached: every call rejects. *)
Definition unreachable : Communication :=
  mkComm (fun _ _ _ => None) (fun _ _ => None) (fun _ _ _ => None)
         (fun _ _ => None) (fun _ _ _ => None) (fun _ _ => None)
         (fun _ _ => None).

(** Node 40, created alone and then joined through node 10, which was
    alone too and therefore answered with its own id. *)
Definition node40 : Node := set_successor 10 (new 40 None).

(** A transport on which node 40 (and only node 40) answers, from the state
    [node40]: its predecessor, its successor list, its successor; it
    accepts [Notify] and [Ping]; asked for a successor it answers with its
    own id (no finger of a node whose fingers all point to itself precedes
    any key). *)
Definition node40Answers : Communication :=
  let at40 {A : Type} (target : Id) (a : A) : option A :=
    if target =? 40 then Some a else None in
  mkComm (fun _ target _ => at40 target 40)
         (fun _ target => at40 target (successor node40))
         (fun _ _ _ => None)
         (fun _ target => at40 target (predecessor node40))
         (fun _ target _ => at40 target tt)
         (fun _ target => at40 target tt)
         (fun _ target => at40 target (successorList node40)).

(** Node 10, created alone, after [joinNode(40)] on that transport. *)
Definition node10 : Node := after (joinNode node40Answers 40 (new 10 None)).

End Scenario.

(* ===================================================================== *)
(** ** Histories of one node *)
(* ===================================================================== *)

Module Overlay.
Import Js Chord.

(** [a] is sorted in front of [b] by the comparator of
[updateSuccesorsList] on the node [selfId]. *)
Definition before (selfId a b : Id) : Prop := compareSuccessors selfId a b < 0.

(** What can be done to a node object from outside: the public methods, each
asynchronous one with the transport answers it meets, and one tick of the
[fixFingers] generator. *)
Inductive Op : Type :=
| JoinNode (comm : Communication) (targetNodeId : Id)
| Stabilize (comm : Communication)
| NotifyFrom (x : Id)
| CheckPredecessor (comm : Communication)
| FixFingersNext (comm : Communication)
| SetLogging (val : bool).

(** A node together with its [fixFingers] generator: the generator is
suspended at its [yield] with the counter it holds, or finished ([None])
once a resumption has thrown. *)
Definition Instance : Type := (Node * option Number)%type.

(** One operation.  A method that throws leaves the writes it has made. *)
Definition perform (st : Instance) (op : Op) : Instance :=
  match op with
  | JoinNode comm targetNodeId => (after (joinNode comm targetNodeId st.1), st.2)
  | Stabilize comm => (after (stabilize comm st.1), st.2)
  | NotifyFrom x => (notify x st.1, st.2)
  | CheckPredecessor comm => (after (checkPredecessor comm st.1), st.2)
  | FixFingersNext comm =>
      match st.2 with
      | None => st
      | Some counter =>
          match fixFingersStep comm counter st.1 with
          | (Return counter', this', _) => (this', Some counter')
          | (Throw, this', _) => (this', None)
          end
      end
  | SetLogging val => (setLogging val st.1, st.2)
  end.

(** [new Node(comm, selfId, succ)] followed by a sequence of operations. *)
Definition history (selfId : Id) (succ : option Id) (ops : list Op) : Instance :=
  fold_left perform ops (new selfId succ, Some fixFingersStart).

(** What holds of a node with id [selfId] throughout its life (shown
below): the fields no method writes, the shape of the finger table and of
the successor list, and the soundness of the [dead] flag. *)
Definition nodeOk (selfId : Id) (this : Node) : Prop :=
  id this = selfId
  /\ storage this = ∅
  /\ key <$> fingers this = key <$> createFingerTable selfId
  /\ fingers this !! (KEY_BITS - 1)%nat
     = createFingerTable selfId !! (KEY_BITS - 1)%nat
  /\ (length (successorList this) <= MAX_SUCCESSORS_LIST_LENGTH)%nat
  /\ NoDup (successorList this)
  /\ StronglySorted (before selfId) (successorList this)
  /\ (dead this = true -> isDead this = true).

(** The generator is suspended with a counter that indexes a finger other
than the last. *)
Definition generatorOk (gen : option Number) : Prop :=
  exists c, gen = Some (Num c) /\ 0 <= c < Z.of_nat KEY_BITS - 1.

End Overlay.

(* ===================================================================== *)
(** * Properties *)
(* ===================================================================== *)

(** ** Interval membership *)

Section IntervalFacts.

(** [withinInterval] is the linear test on both bounds. *)
Lemma withinInterval_open (x s e : Z) :
  withinInterval x (open_ s e) = true <-> s < x < e.
Proof. unfold withinInterval, open_; simpl. rewrite andb_true_iff. lia. Qed.

Lemma withinInterval_openClosed (x s e : Z) :
  withinInterval x (openClosed s e) = true <-> s < x <= e.
Proof. unfold withinInterval, openClosed; simpl. rewrite andb_true_iff. lia. Qed.

(** An interval whose start is not below its end is empty, whatever the
    value: nothing wraps around. *)
Lemma withinInterval_wrap_empty (x s e : Z) :
  e <= s -> withinInterval x (open_ s e) = false.
Proof.
  intros Hse. apply not_true_is_false. rewrite withinInterval_open. lia.
Qed.

Lemma withinInterval_openClosed_wrap_empty (x s e : Z) :
  e <= s -> withinInterval x (openClosed s e) = false.
Proof.
  intros Hse. apply not_true_is_false. rewrite withinInterval_openClosed. lia.
Qed.

(** C1: on the ring the open interval from 60 to 5 should contain 62
    (62 > 60), and the open interval from 7 to 7 should contain 9 (9 <> 7);
    [withinInterval] answers [false] at both, where the cyclic reading
    answers [true]. *)
Theorem withinInterval_not_cyclic :
  (60 > 5 /\ (62 > 60 \/ 62 < 5) /\ withinInterval 62 (open_ 60 5) = false)
  /\ (9 <> 7 /\ withinInterval 9 (open_ 7 7) = false).
Proof. repeat split; (lia || reflexivity). Qed.

(** C9: with a = 10, b = 40 and x = 50 (outside both end points), neither
    (a, b] nor (b, a] contains x: the two half-open arcs do not cover the
    ring. *)
Theorem withinInterval_no_complement :
  10 <> 40 /\ 50 <> 10 /\ 50 <> 40
  /\ withinInterval 50 (openClosed 10 40) = false
  /\ withinInterval 50 (openClosed 40 10) = false.
Proof. repeat split; (lia || reflexivity). Qed.

End IntervalFacts.

(** ** Routing, notify and the singleton tick *)

Section NodeFacts.
Import Js Chord.

Variable comm : Communication.

(** [findSuccessorForKey] answers in three steps.  With the key inside
    [(id, successor]] (as [withinInterval] decides it) the answer is the
    successor and nothing is sent; otherwise, when the closest preceding
    finger is the node itself, the answer is the node's id and nothing is
    sent; otherwise exactly one [FindSuccessorForId] goes to that finger and
    the answer is the finger's reply, or the node's id when the call fails.
    In every case the method returns (it never throws) and the node's state
    is untouched. *)
Theorem findSuccessorForKey_three_steps (this : Node) (k : Id) :
  let r := findSuccessorForKey comm k this in
  let n := getClosestPrecedingNode this k in
  after r = this
  /\ (exists answer, completion r = Return answer)
  /\ (if withinInterval k (openClosed (id this) (successor this))
      then completion r = Return (successor this) /\ sent r = []
      else if n =? id this
      then completion r = Return (id this) /\ sent r = []
      else sent r = [(n, FindSuccessorForId k)]
           /\ match commFindSuccessorForId comm this n k with
              | Some answer => completion r = Return answer
              | None => completion r = Return (id this)
              end).
Proof.
  unfold findSuccessorForKey, bind, self, completion, after, sent; simpl.
  destruct (withinInterval k (openClosed (id this) (successor this))); simpl.
  { eauto. }
  destruct (getClosestPrecedingNode this k =? id this) eqn:Hself; simpl.
  { eauto. }
  unfold tryCatch, requestSuccessor, await, ret.
  destruct (commFindSuccessorForId comm this _ k); simpl; eauto.
Qed.

(** C4: on a node that is its own successor, [stabilize] returns at once:
    no call is sent and the whole state is the one it started from. *)
Theorem stabilize_singleton_noop (this : Node) :
  successor this = id this ->
  stabilize comm this = (Return tt, this, []).
Proof.
  intros Hsingle. unfold stabilize, bind, self; simpl.
  rewrite Hsingle, Z.eqb_refl. reflexivity.
Qed.

(** [set predecessor] only looks at the value it is given and at fields it
    does not change, so assigning the same value twice is assigning once. *)
Lemma set_predecessor_twice (p : option Id) (this : Node) :
  set_predecessor p (set_predecessor p this) = set_predecessor p this.
Proof. reflexivity. Qed.

(** C8: [notify x] applied twice leaves the node exactly as [notify x]
    applied once. *)
Theorem notify_idempotent (x : Id) (this : Node) :
  notify x (notify x this) = notify x this.
Proof.
  unfold notify at 2 3.
  destruct (negb (truthy (predecessor this)) || _) eqn:Hadopt; [|].
  - (* the first call adopted x *)
    unfold notify.
    change (predecessor (set_predecessor (Some x) this)) with (Some x).
    change (id (set_predecessor (Some x) this)) with (id this).
    destruct (negb (truthy (Some x)) || _).
    + apply set_predecessor_twice.
    + reflexivity.
  - (* the first call changed nothing, so the second sees the same test *)
    unfold notify. rewrite Hadopt. reflexivity.
Qed.

End NodeFacts.

(** C2: node 60 with successor 5 is asked for key 3.  On the ring the key
lies in [(60, 5]] (the interval wraps: 60 > 5 and 3 <= 5), so the first step
should answer with the successor 5 without any call.  The linear
[withinInterval] rejects the key, no finger lies in [(60, 3)], and the
method answers with the node's own id 60, whatever the transport. *)
Theorem findSuccessorForKey_misses_wrap :
  let this := Chord.set_successor 5 (Chord.new 60 None) in
  Chord.id this = 60 /\ Chord.successor this = 5
  /\ (Chord.id this > Chord.successor this
      /\ (3 > Chord.id this \/ 3 <= Chord.successor this))
  /\ withinInterval 3 (openClosed (Chord.id this) (Chord.successor this)) = false
  /\ Chord.getClosestPrecedingNode this 3 = Chord.id this
  /\ forall comm : Chord.Communication,
       Chord.findSuccessorForKey comm 3 this = (Chord.Return 60, this, []).
Proof.
  cbv zeta. split_and!; try reflexivity.
  right. vm_compute. discriminate.
Qed.

(** C4 at a node created alone, [new Node(comm, 10n)], even with a peer
    that would answer. *)
Lemma stabilize_singleton_noop_witness :
  Chord.stabilize Scenario.node40Answers (Chord.new 10 None)
  = (Chord.Return tt, Chord.new 10 None, []).
Proof.
  apply (stabilize_singleton_noop Scenario.node40Answers (Chord.new 10 None)).
  reflexivity.
Defined.

(** ** The array helpers *)

Section JsFacts.
Import Js.

Implicit Types (l acc : list Z) (x y : Z).

Lemma indexOf_None l x : indexOf l x = None <-> x ∉ l.
Proof.
  induction l as [|y r IH]; simpl.
  - split; [intros _; apply not_elem_of_nil | done].
  - rewrite not_elem_of_cons. destruct (Z.eqb_spec y x) as [->|Hne].
    + split; [done | intros [? _]; done].
    + destruct (indexOf r x) eqn:Hr; simpl.
      * split; [done|]. intros [_ Hnot]. apply IH in Hnot. done.
      * split; [|done]. intros _. split; [congruence | by apply IH].
Qed.

Lemma indexOf_Some l x i : indexOf l x = Some i -> l !! i = Some x.
Proof.
  revert i. induction l as [|y r IH]; intros i; simpl; [done|].
  destruct (Z.eqb_spec y x) as [->|Hne].
  - intros [= <-]. reflexivity.
  - destruct (indexOf r x) as [j|]; simpl; [|done].
    intros [= <-]. simpl. by apply IH.
Qed.

Lemma includes_true l x : includes l x = true <-> x ∈ l.
Proof.
  unfold includes. destruct (indexOf l x) eqn:Hi.
  - split; [|done]. intros _. apply indexOf_Some in Hi.
    apply list_elem_of_lookup. eauto.
  - apply indexOf_None in Hi. split; [done | intros; done].
Qed.

Lemma includes_false l x : includes l x = false <-> x ∉ l.
Proof.
  rewrite <- includes_true. destruct (includes l x); split; congruence.
Qed.

Lemma spliceOut_subseteq l x : spliceOut l x ⊆ l.
Proof.
  unfold spliceOut. destruct (indexOf l x); [|done].
  apply sublist_subseteq, sublist_delete.
Qed.

Lemma spliceOut_absent l x : x ∉ l -> spliceOut l x = l.
Proof. intros Hx. unfold spliceOut. apply indexOf_None in Hx. by rewrite Hx. Qed.

(** In an array without duplicates, [spliceOut] removes the value
    altogether. *)
Lemma spliceOut_NoDup l x : NoDup l -> x ∉ spliceOut l x.
Proof.
  unfold spliceOut. induction l as [|y r IH]; simpl.
  - intros _. apply not_elem_of_nil.
  - rewrite NoDup_cons. intros [Hy Hr].
    destruct (Z.eqb_spec y x) as [->|Hne]; simpl; [done|].
    specialize (IH Hr). destruct (indexOf r x) as [j|] eqn:Hj; simpl.
    + rewrite not_elem_of_cons. split; [congruence | done].
    + rewrite not_elem_of_cons. split; [congruence | done].
Qed.

Lemma elem_of_setAdd acc x y : y ∈ setAdd acc x <-> y ∈ acc \/ y = x.
Proof.
  unfold setAdd. destruct (includes acc x) eqn:Hin.
  - apply includes_true in Hin. split; [auto|]. intros [?| ->]; done.
  - rewrite elem_of_app, list_elem_of_singleton. done.
Qed.

Lemma elem_of_fold_setAdd l acc y :
  y ∈ fold_left setAdd l acc <-> y ∈ acc \/ y ∈ l.
Proof.
  revert acc. induction l as [|x r IH]; intros acc; simpl.
  - rewrite elem_of_nil. tauto.
  - rewrite IH, elem_of_setAdd, elem_of_cons. tauto.
Qed.

Lemma elem_of_arrayFromSet l y : y ∈ arrayFromSet l <-> y ∈ l.
Proof.
  unfold arrayFromSet. rewrite elem_of_fold_setAdd, elem_of_nil. tauto.
Qed.

Lemma insertBy_Permutation cmp x l : insertBy cmp x l ≡ₚ x :: l.
Proof.
  induction l as [|y r IH]; simpl; [done|].
  destruct (cmp x y <=? 0); [done|].
  rewrite IH. apply Permutation_swap.
Qed.

Lemma sortBy_Permutation cmp l : sortBy cmp l ≡ₚ l.
Proof.
  induction l as [|x r IH]; simpl; [done|].
  rewrite insertBy_Permutation. by rewrite IH.
Qed.

Lemma elem_of_sortBy cmp l y : y ∈ sortBy cmp l <-> y ∈ l.
Proof. by rewrite sortBy_Permutation. Qed.

Lemma setAdd_NoDup acc x : NoDup acc -> NoDup (setAdd acc x).
Proof.
  intros Hacc. unfold setAdd. destruct (includes acc x) eqn:Hin; [done|].
  apply includes_false in Hin. apply NoDup_app. split; [done|]. split.
  - intros y Hy ->%list_elem_of_singleton. done.
  - apply NoDup_singleton.
Qed.

Lemma fold_setAdd_NoDup l acc : NoDup acc -> NoDup (fold_left setAdd l acc).
Proof.
  revert acc. induction l as [|x r IH]; intros acc Hacc; simpl; [done|].
  apply IH, setAdd_NoDup, Hacc.
Qed.

(** [Array.from(new Set(l))] has no duplicates, and neither has the array
sorted from it. *)
Lemma arrayFromSet_NoDup l : NoDup (arrayFromSet l).
Proof. apply fold_setAdd_NoDup, NoDup_nil_2. Qed.

Lemma sortBy_NoDup cmp l : NoDup l -> NoDup (sortBy cmp l).
Proof. by rewrite sortBy_Permutation. Qed.

Lemma spliceOut_keeps_NoDup l x : NoDup l -> NoDup (spliceOut l x).
Proof.
  intros Hl. unfold spliceOut. destruct (indexOf l x); [|done].
  by apply (sublist_NoDup _ l), sublist_delete.
Qed.

Lemma fold_setAdd_length (l acc : list Z) :
  (length (fold_left setAdd l acc) <= length acc + length l)%nat.
Proof.
  revert acc. induction l as [|x r IH]; intros acc; simpl; [lia|].
  etrans; [apply IH|]. unfold setAdd. destruct (includes acc x); [lia|].
  rewrite length_app. simpl. lia.
Qed.

Lemma arrayFromSet_length (l : list Z) :
  (length (arrayFromSet l) <= length l)%nat.
Proof. apply (fold_setAdd_length l []). Qed.

End JsFacts.

(** ** The successor list, the dead flag and a failed stabilize round *)

Section SuccessorFacts.
Import Js Chord.

Lemma sameElsewhere_refl a : sameElsewhere a a.
Proof. by repeat split. Qed.

Lemma sameElsewhere_trans a b c :
  sameElsewhere a b -> sameElsewhere b c -> sameElsewhere a c.
Proof.
  unfold sameElsewhere. intros (?&?&?&?&?) (?&?&?&?&?).
  repeat split; congruence.
Qed.

Lemma updateSuccesorsList_elsewhere newList this :
  sameElsewhere (updateSuccesorsList newList this) this
  /\ successor (updateSuccesorsList newList this) = successor this
  /\ dead (updateSuccesorsList newList this) = dead this.
Proof. by repeat split. Qed.

Lemma set_successor_elsewhere succ this :
  sameElsewhere (set_successor succ this) this
  /\ successor (set_successor succ this) = succ.
Proof. unfold set_successor. by destruct (negb _); repeat split. Qed.

(** Both setters leave [dead] equal to the expression they evaluate. *)
Lemma set_successor_dead succ this :
  dead (set_successor succ this) = isDead (set_successor succ this).
Proof. unfold set_successor. by destruct (negb _). Qed.

Lemma set_predecessor_dead p this :
  dead (set_predecessor p this) = isDead (set_predecessor p this).
Proof. reflexivity. Qed.

(** The successor list never holds an id twice: it is empty at
construction and every write keeps it duplicate-free. *)
Lemma updateSuccesorsList_NoDup newList this :
  NoDup (successorList (updateSuccesorsList newList this)).
Proof.
  unfold updateSuccesorsList; simpl.
  eapply sublist_NoDup; [|apply sublist_take].
  apply sortBy_NoDup, arrayFromSet_NoDup.
Qed.

Lemma set_successor_NoDup succ this :
  NoDup (successorList this) -> NoDup (successorList (set_successor succ this)).
Proof.
  intros Hthis. unfold set_successor. destruct (negb _).
  - apply updateSuccesorsList_NoDup.
  - simpl. by apply spliceOut_keeps_NoDup.
Qed.

(** Whatever [updateSuccesorsList] keeps was a candidate or already
    listed. *)
Lemma elem_of_updateSuccesorsList newList this (y : Id) :
  y ∈ successorList (updateSuccesorsList newList this) ->
  y ∈ newList \/ y ∈ successorList this.
Proof.
  unfold updateSuccesorsList; simpl. intros Hy.
  apply subseteq_take in Hy.
  by rewrite elem_of_sortBy, elem_of_arrayFromSet, elem_of_app in Hy.
Qed.

Lemma elem_of_set_successor succ this (y : Id) :
  y ∈ successorList (set_successor succ this) ->
  y = succ \/ y ∈ successorList this.
Proof.
  unfold set_successor.
  destruct (negb _); intros Hy.
  - apply elem_of_updateSuccesorsList in Hy as [Hy|Hy]; simpl in Hy.
    + left. by apply list_elem_of_singleton.
    + right. by apply (spliceOut_subseteq _ (_successor this)).
  - right. by apply (spliceOut_subseteq _ (_successor this)).
Qed.

Lemma keeps_ret {A : Type} (a : A) : keeps (ret a).
Proof. intros this. apply sameElsewhere_refl. Qed.

Lemma keeps_self : keeps self.
Proof. intros this. apply sameElsewhere_refl. Qed.

Lemma keeps_await {A : Type} target req (answer : Node -> option A) :
  keeps (await target req answer).
Proof. intros this. apply sameElsewhere_refl. Qed.

Lemma keeps_update (f : Node -> Node) :
  (forall this, sameElsewhere (f this) this) -> keeps (update f).
Proof. intros Hf this. apply Hf. Qed.

Lemma keeps_bind {A B : Type} (m : Async A) (f : A -> Async B) :
  keeps m -> (forall a, keeps (f a)) -> keeps (bind m f).
Proof.
  intros Hm Hf this. unfold bind, after. specialize (Hm this).
  destruct (m this) as [[[a|] this1] sent1]; simpl in *; [|done].
  specialize (Hf a this1). destruct (f a this1) as [[r2 this2] sent2].
  simpl in *. by eapply sameElsewhere_trans.
Qed.

Lemma keeps_tryCatch {A : Type} (m h : Async A) :
  keeps m -> keeps h -> keeps (tryCatch m h).
Proof.
  intros Hm Hh this. unfold tryCatch, after. specialize (Hm this).
  destruct (m this) as [[[a|] this1] sent1]; simpl in *; [done|].
  specialize (Hh this1). destruct (h this1) as [[r2 this2] sent2].
  simpl in *. by eapply sameElsewhere_trans.
Qed.

Lemma keeps_set_successor succ : keeps (update (set_successor succ)).
Proof. apply keeps_update. intros this. apply set_successor_elsewhere. Qed.

Lemma stabilizeRound_keeps comm : keeps (stabilizeRound comm).
Proof.
  unfold stabilizeRound.
  apply keeps_bind; [apply keeps_self|]. intros this.
  apply keeps_bind; [apply keeps_await|]. intros preId.
  apply keeps_bind.
  { destruct preId as [p|]; [|apply keeps_ret].
    destruct (truthy _ && _); [apply keeps_set_successor|apply keeps_ret]. }
  intros _. apply keeps_bind; [apply keeps_self|]. intros this1.
  apply keeps_bind; [apply keeps_await|]. intros _.
  apply keeps_bind; [apply keeps_self|]. intros this2.
  apply keeps_bind; [apply keeps_await|]. intros newSuccList.
  apply keeps_update. intros this3. apply updateSuccesorsList_elsewhere.
Qed.

Lemma stabilizeFailed_keeps : keeps stabilizeFailed.
Proof.
  unfold stabilizeFailed.
  apply keeps_bind; [apply keeps_update; intros this; by repeat split|].
  intros _. apply keeps_bind; [apply keeps_self|]. intros this.
  apply keeps_set_successor.
Qed.

Lemma triple_ret {A : Type} (a : A) (Q : A -> Node -> Prop) E :
  triple (Q a) (ret a) Q E.
Proof. intros this HP. exact HP. Qed.

Lemma triple_self (P : Node -> Prop) E :
  triple P self (fun a this => a = this /\ P this) E.
Proof. intros this HP. by split. Qed.

Lemma triple_update (P Q : Node -> Prop) (f : Node -> Node) E :
  (forall this, P this -> Q (f this)) -> triple P (update f) (fun _ => Q) E.
Proof. intros Hf this HP. by apply Hf. Qed.

Lemma triple_await {A : Type} (P E : Node -> Prop) target req
      (answer : Node -> option A) :
  (forall this, P this -> E this) ->
  triple P (await target req answer)
         (fun a this => P this /\ answer this = Some a) E.
Proof.
  intros HPE this HP. unfold await, completion, after; simpl.
  destruct (answer this); [done | by apply HPE].
Qed.

Lemma triple_bind {A B : Type} (P : Node -> Prop) (m : Async A)
      (R : A -> Node -> Prop) (f : A -> Async B) Q E :
  triple P m R E -> (forall a, triple (R a) (f a) Q E) ->
  triple P (bind m f) Q E.
Proof.
  intros Hm Hf this HP. specialize (Hm this HP).
  unfold bind, completion, after in *.
  destruct (m this) as [[[a|] this1] sent1]; simpl in *; [|done].
  specialize (Hf a this1 Hm).
  by destruct (f a this1) as [[r2 this2] sent2].
Qed.

Lemma triple_weaken {A : Type} (P P' : Node -> Prop) (m : Async A) Q E :
  (forall this, P' this -> P this) -> triple P m Q E -> triple P' m Q E.
Proof. intros HPP Hm this HP. by apply Hm, HPP. Qed.

Lemma updateSuccesorsList_selfNotListed i newList this :
  i ∉ newList -> selfNotListed i this ->
  selfNotListed i (updateSuccesorsList newList this).
Proof.
  intros Hnew [Hid Hlist]. split; [done|].
  intros Hin. apply elem_of_updateSuccesorsList in Hin as [?|?]; done.
Qed.

Lemma set_successor_selfNotListed i succ this :
  succ <> i -> selfNotListed i this -> selfNotListed i (set_successor succ this).
Proof.
  intros Hsucc [Hid Hlist]. split.
  - rewrite <- Hid. apply set_successor_elsewhere.
  - intros Hin. apply elem_of_set_successor in Hin as [?|?]; done.
Qed.

(** A round of [stabilize] keeps the node's id out of its own list, as
    long as the lists it receives do not contain it. *)
Lemma stabilizeRound_selfNotListed comm i :
  (forall requester target l,
      commGetSuccessorsList comm requester target = Some l -> i ∉ l) ->
  triple (selfNotListed i) (stabilizeRound comm)
         (fun _ => selfNotListed i) (selfNotListed i).
Proof.
  intros Hlists. unfold stabilizeRound.
  eapply triple_bind; [apply triple_self|]. intros this; simpl.
  eapply triple_bind; [apply triple_await; by intros n [_ H]|].
  intros preId; simpl.
  apply triple_bind with (R := fun _ => selfNotListed i).
  { destruct preId as [p|].
    - destruct (truthy _ && withinInterval p _) eqn:Hadopt.
      + apply andb_true_iff in Hadopt as [_ Hin].
        apply withinInterval_open in Hin.
        apply triple_update. intros n [[<- Hn] _].
        apply set_successor_selfNotListed; [|done].
        destruct Hn as [Hid _]. lia.
      + eapply triple_weaken; [|apply (triple_ret tt (fun _ => selfNotListed i))].
        by intros n [[_ H] _].
    - eapply triple_weaken; [|apply (triple_ret tt (fun _ => selfNotListed i))].
      by intros n [[_ H] _]. }
  intros _. eapply triple_bind; [apply triple_self|]. intros this1; simpl.
  eapply triple_bind; [apply triple_await; by intros n [_ H]|].
  intros []; simpl.
  eapply triple_bind; [apply triple_self|]. intros this2; simpl.
  eapply triple_bind;
    [apply triple_await; by intros n [_ [[_ H] _]]|].
  intros newSuccList; simpl.
  apply triple_update. intros n [[_ [[_ Hn] _]] Hanswer].
  apply updateSuccesorsList_selfNotListed; [|done].
  by eapply Hlists.
Qed.

(** A call that is always answered never throws. *)
Lemma triple_await_answered {A : Type} (P E : Node -> Prop) target req
      (answer : Node -> option A) :
  (forall this, is_Some (answer this)) ->
  triple P (await target req answer) (fun _ => P) E.
Proof.
  intros Hanswered this HP. unfold await, completion, after; simpl.
  by destruct (Hanswered this) as [a ->].
Qed.

(** The round throws only because a call was rejected: on a transport that
answers the three requests it returns. *)
Lemma stabilizeRound_returns comm this :
  (forall requester target, is_Some (commGetPredecessor comm requester target)) ->
  (forall requester target k, is_Some (commNotify comm requester target k)) ->
  (forall requester target, is_Some (commGetSuccessorsList comm requester target)) ->
  completion (stabilizeRound comm this) = Return tt.
Proof.
  intros Hpre Hnotify Hlist.
  assert (Htriple : triple (fun _ => True) (stabilizeRound comm)
                           (fun _ _ => True) (fun _ => False)).
  { unfold stabilizeRound.
    eapply triple_bind; [apply triple_self|]. intros n; simpl.
    apply triple_bind with (R := fun _ _ => True).
    { eapply triple_weaken; [|apply triple_await_answered]; [done|].
      intros ?. apply Hpre. }
    intros preId.
    apply triple_bind with (R := fun _ _ => True).
    { destruct preId as [p|]; [destruct (truthy _ && _)|];
        by intros ? _. }
    intros _. apply triple_bind with (R := fun _ _ => True); [by intros ? _|].
    intros n1.
    apply triple_bind with (R := fun _ _ => True).
    { apply triple_await_answered. intros ?. apply Hnotify. }
    intros _. apply triple_bind with (R := fun _ _ => True); [by intros ? _|].
    intros n2.
    apply triple_bind with (R := fun _ _ => True).
    { apply triple_await_answered. intros ?. apply Hlist. }
    intros newSuccList. by intros ? _. }
  specialize (Htriple this I).
  by destruct (completion (stabilizeRound comm this)) as [[]|].
Qed.

End SuccessorFacts.

Section SuccessorClaims.
Import Js Chord Scenario.

(** C6 (as amended): nothing filters the node's own id, but it only enters
    the successor list when it is supplied.  Starting from a list without
    it, [updateSuccesorsList] keeps it out when it is not among the
    candidates; [set successor] keeps it out when the new successor is
    another id; and [stabilize], whether its round completes or a call
    fails, keeps it out when no list received from a peer contains it and
    the tick does not turn the node into its own successor (the fallback of
    the failure branch, which assigns the node's id through the setter).
    When the node's id is among the candidates and candidates and held ids
    together are at most three, [updateSuccesorsList] inserts it. *)
Theorem successorList_self_only_when_supplied (this : Node) :
  id this ∉ successorList this ->
  (forall newList,
      id this ∉ newList ->
      id this ∉ successorList (updateSuccesorsList newList this))
  /\ (forall succ,
         succ <> id this ->
         id this ∉ successorList (set_successor succ this))
  /\ (forall comm,
         (forall requester target l,
             commGetSuccessorsList comm requester target = Some l ->
             id this ∉ l) ->
         successor this = id this
         \/ successor (after (stabilize comm this)) <> id this ->
         id this ∉ successorList (after (stabilize comm this)))
  /\ (forall newList,
         id this ∈ newList ->
         (length newList + length (successorList this)
          <= MAX_SUCCESSORS_LIST_LENGTH)%nat ->
         id this ∈ successorList (updateSuccesorsList newList this)).
Proof.
  intros Hself.
  assert (Hinv : selfNotListed (id this) this) by done.
  split; [|split; [|split]].
  - intros newList Hnew.
    exact (proj2 (updateSuccesorsList_selfNotListed _ newList this Hnew Hinv)).
  - intros succ Hsucc.
    exact (proj2 (set_successor_selfNotListed _ succ this Hsucc Hinv)).
  - intros comm Hlists Hnotself.
    pose proof (stabilizeRound_selfNotListed comm (id this) Hlists this Hinv)
      as Hround.
    revert Hnotself. unfold stabilize, bind, self; simpl.
    destruct (Z.eqb_spec (successor this) (id this)) as [Hsingle|Hother];
      [done|].
    unfold tryCatch, completion, after in *.
    destruct (stabilizeRound comm this) as [[[[]|] this1] calls];
      simpl in *; [intros _; by destruct Hround|].
    unfold stabilizeFailed, bind, update, self; simpl.
    set (cut := withSuccessorList this1 _).
    intros [?|Hbest]; [done|].
    rewrite (proj2 (set_successor_elsewhere _ _)) in Hbest.
    assert (Hcut : selfNotListed (id this) cut).
    { destruct Hround as [Hid Hlist]. split; [done|]. subst cut; simpl.
      intros Hin. by apply spliceOut_subseteq in Hin. }
    exact (proj2 (set_successor_selfNotListed _ _ cut Hbest Hcut)).
  - intros newList Hin Hroom. unfold updateSuccesorsList; simpl.
    rewrite take_ge.
    + rewrite elem_of_sortBy, elem_of_arrayFromSet, elem_of_app. by left.
    + rewrite sortBy_Permutation.
      etrans; [apply arrayFromSet_length|]. rewrite length_app. lia.
Qed.

(** C6 at node 10 after it joined through node 40: its list is [[40]], and
    merging the candidate 50 keeps 10 out. *)
Lemma successorList_self_only_when_supplied_witness :
  id node10 ∉ successorList (updateSuccesorsList [50] node10).
Proof.
  assert (Hself : id node10 ∉ successorList node10).
  { vm_compute. intros Hin. apply list_elem_of_singleton in Hin. lia. }
  apply (successorList_self_only_when_supplied node10 Hself).
  vm_compute. intros Hin. apply list_elem_of_singleton in Hin. lia.
Defined.

(** C6 fails as stated.  Two nodes, 10 and 40, each joined through the
    other: node 40 lists its successor 10, and node 10 has successor 40.
    Node 10 runs one round of [stabilize]; all three calls are answered by
    node 40, and the list received, [[10]], is merged as it is: node 10 now
    lists itself although the ring has two members. *)
Lemma successorList_self_counterexample :
  let r := stabilize node40Answers node10 in
  ~ (completion r = Return tt ->
     sent r = [(40, GetPredecessor); (40, Notify 10); (40, GetSuccessorsList)] ->
     id (after r) ∉ successorList (after r)).
Proof.
  intros r Hnever. apply Hnever; [reflexivity | reflexivity |].
  vm_compute. apply list_elem_of_lookup. exists 1%nat. reflexivity.
Qed.

(** C3 (as amended): when a call inside the round fails, [stabilize] still
    returns, has sent just the calls of the interrupted round, and has run
    the failure branch on the state [this1] the round had reached.  That
    branch removes the failed successor from the list and assigns the best
    successor through [set successor]: [id], [predecessor], [fingers],
    [storage] and [logging] are as before the round, [dead] is recomputed
    from the new successor, and
    - with a duplicate-free list whose first remaining entry [x] is not
      zero, the successor becomes [x] and the list is the old one without
      the failed successor;
    - with no entry remaining, the successor becomes the node's own id,
      which the setter also puts into the list. *)
Theorem stabilize_failure (comm : Communication) (this this1 : Node)
        (calls : list Call) :
  successor this <> id this ->
  stabilizeRound comm this = (Throw, this1, calls) ->
  let rest := spliceOut (successorList this1) (successor this1) in
  let r := stabilize comm this in
  completion r = Return tt
  /\ sent r = calls
  /\ sameElsewhere (after r) this
  /\ dead (after r) = isDead (after r)
  /\ (forall x,
         NoDup (successorList this1) -> head rest = Some x -> x <> 0 ->
         successor (after r) = x /\ successorList (after r) = rest)
  /\ (rest = [] ->
      successor (after r) = id this /\ successorList (after r) = [id this]).
Proof.
  intros Hnot Hthrow rest r.
  pose proof (stabilizeRound_keeps comm this) as Hkeep.
  rewrite Hthrow in Hkeep. unfold after in Hkeep; simpl in Hkeep.
  set (cut := withSuccessorList this1 rest).
  assert (Hr : r = (Return tt, set_successor (getBestSuccessor cut) cut, calls)).
  { subst r. unfold stabilize, bind, self; simpl.
    apply Z.eqb_neq in Hnot. rewrite Hnot.
    unfold tryCatch. rewrite Hthrow.
    unfold stabilizeFailed, bind, update, self; simpl.
    by rewrite app_nil_r. }
  rewrite Hr. unfold completion, sent, after; simpl.
  split; [done|]. split; [done|]. split.
  { eapply sameElsewhere_trans; [apply set_successor_elsewhere|].
    eapply sameElsewhere_trans; [|exact Hkeep]. by repeat split. }
  split; [apply set_successor_dead|]. split.
  - intros x Hnodup Hhead Hx.
    assert (Hbest : getBestSuccessor cut = x).
    { unfold getBestSuccessor, cut; simpl. rewrite Hhead; simpl.
      apply Z.eqb_neq in Hx. by rewrite Hx. }
    rewrite Hbest. unfold set_successor, cut; simpl.
    fold rest.
    rewrite (spliceOut_absent rest (_successor this1))
      by (apply spliceOut_NoDup, Hnodup).
    assert (Hin : includes rest x = true).
    { apply includes_true. destruct rest; [done|].
      injection Hhead as ->. by left. }
    by rewrite Hin.
  - intros Hempty. destruct Hkeep as [Hid _].
    unfold getBestSuccessor, set_successor, cut; simpl.
    fold rest. rewrite Hempty; simpl. by rewrite Hid.
Qed.

(** C3 at node 10 (successor 40, list [[40]]) when node 40 no longer
    answers: the first call fails, node 10 falls back to itself and lists
    itself. *)
Lemma stabilize_failure_witness :
  let r := stabilize unreachable node10 in
  successor (after r) = 10 /\ successorList (after r) = [10].
Proof.
  assert (Hnot : successor node10 <> id node10) by (vm_compute; lia).
  assert (Hthrow : stabilizeRound unreachable node10
                   = (Throw, node10, [(40, GetPredecessor)])) by reflexivity.
  apply (stabilize_failure unreachable node10 node10 _ Hnot Hthrow).
  reflexivity.
Defined.

(** C3 fails as stated.  Node 10 has successor 40 and list [[40]]; node 40
    stops answering.  After the failed round the list is not the old list
    without 40 (the empty list) but [[10]], and [dead], a field other than
    [successor] and [successorList], has changed from [false] to [true]. *)
Lemma stabilize_failure_counterexample :
  let r := stabilize unreachable node10 in
  ~ (successorList (after r) = spliceOut (successorList node10) (successor node10)
     /\ successor (after r) = id node10
     /\ dead (after r) = dead node10).
Proof. intros r (Hlist & _ & _). vm_compute in Hlist. discriminate. Qed.

(** C7: the constructor leaves [dead = false] on a node that is its own
    successor and has no predecessor, although [successor == id] and
    [predecessor == None] both hold; and once a setter has run, a
    predecessor with id 0 counts as absent, so [dead] is [true] although
    the predecessor is known. *)
Theorem dead_flag_not_derived :
  (let this := new 10 None in
   successor this = id this /\ predecessor this = None /\ dead this = false)
  /\ (let this := notify 0 (new 10 None) in
      successor this = id this /\ predecessor this = Some 0 /\ dead this = true).
Proof. by repeat split. Qed.

End SuccessorClaims.

(** ** The fix-fingers generator *)

Section FixFingersFacts.
Import Js Chord Scenario.

(** [findSuccessorForKey] always returns and does not write to the node. *)
Lemma findSuccessorForKey_returns comm (k : Id) (this : Node) :
  exists answer calls,
    findSuccessorForKey comm k this = (Return answer, this, calls).
Proof.
  unfold findSuccessorForKey, bind, self; simpl.
  destruct (withinInterval k _); simpl; [by eauto|].
  destruct (getClosestPrecedingNode this k =? id this); simpl; [by eauto|].
  unfold tryCatch, requestSuccessor, await, ret.
  destruct (commFindSuccessorForId comm this _ k); simpl; eauto.
Qed.

(** One resumption with the counter below [length - 1]: it returns, the
    counter advances modulo [length - 1], the array keeps its length and
    only the entry at the counter can have changed. *)
Lemma fixFingersStep_advance comm (c : Z) (this : Node) :
  let M := Z.of_nat (length (fingers this)) in
  0 <= c < M - 1 ->
  exists this' calls,
    fixFingersStep comm (Num c) this
    = (Return (Num ((c + 1) `mod` (M - 1))), this', calls)
    /\ length (fingers this') = length (fingers this)
    /\ (forall j, j <> Z.to_nat c -> fingers this' !! j = fingers this !! j).
Proof.
  intros M Hc. unfold fixFingersStep.
  destruct (Z.ltb_spec c 0) as [?|_]; [lia|].
  unfold bind at 1. unfold self at 1. simpl.
  unfold bind at 1.
  destruct (findSuccessorForKey_returns comm (id this + 2 ^ c) this)
    as (answer & calls & ->).
  unfold bind at 1. unfold self at 1. simpl.
  destruct (lookup_lt_is_Some_2 (fingers this) (Z.to_nat c)) as [f ->].
  { subst M. lia. }
  unfold bind, update, self, ret; simpl.
  rewrite length_insert. fold M.
  unfold rem. destruct (Z.eqb_spec (M - 1) 0) as [?|_]; [lia|].
  rewrite Z.rem_mod_nonneg by lia.
  eexists _, _. split; [reflexivity|]. split; [apply length_insert|].
  intros j Hj. by apply list_lookup_insert_ne.
Qed.

Lemma fixFingersRun_counter (comms : list Communication) :
  forall (c : Z) (this : Node),
    let M := Z.of_nat (length (fingers this)) in
    0 <= c < M - 1 ->
    exists this',
      fixFingersRun comms (Num c) this
      = (Return (Num ((c + Z.of_nat (length comms)) `mod` (M - 1))), this')
      /\ length (fingers this') = length (fingers this)
      /\ fingers this' !! (length (fingers this) - 1)%nat
         = fingers this !! (length (fingers this) - 1)%nat.
Proof.
  induction comms as [|comm rest IH]; intros c this M Hc.
  - exists this. simpl. rewrite Z.add_0_r, Z.mod_small by lia. done.
  - destruct (fixFingersStep_advance comm c this Hc)
      as (this1 & calls & Hstep & Hlen & Hother).
    fold M in Hstep. cbn [fixFingersRun]. rewrite Hstep.
    assert (Hc1 : 0 <= (c + 1) `mod` (M - 1) < M - 1)
      by (apply Z.mod_pos_bound; lia).
    destruct (IH ((c + 1) `mod` (M - 1)) this1) as (this' & Hrun & Hlen' & Hlast).
    { rewrite Hlen. exact Hc1. }
    exists this'. rewrite Hrun, Hlen. fold M.
    split; [|split].
    + do 3 f_equal.
      rewrite Zplus_mod_idemp_l. f_equal. cbn [length]. lia.
    + congruence.
    + rewrite Hlen in Hlast. rewrite Hlast. apply Hother. subst M. lia.
Qed.

(** C5: the generator starts with the counter at 0, and with [M >= 2]
    fingers the counter after any number [k] of ticks is [k mod (M - 1)],
    a value in [[0, M - 1)]; no tick throws, the table keeps its [M]
    entries, and the entry at index [M - 1] is the one the run started
    with. *)
Theorem fixFingers_round_robin (comms : list Communication) (this : Node) :
  (2 <= length (fingers this))%nat ->
  let M := Z.of_nat (length (fingers this)) in
  let k := Z.of_nat (length comms) in
  let out := fixFingersRun comms fixFingersStart this in
  fixFingersStart = Num 0
  /\ out.1 = Return (Num (k `mod` (M - 1)))
  /\ 0 <= k `mod` (M - 1) < M - 1
  /\ length (fingers out.2) = length (fingers this)
  /\ fingers out.2 !! (length (fingers this) - 1)%nat
     = fingers this !! (length (fingers this) - 1)%nat.
Proof.
  intros HM M k out.
  destruct (fixFingersRun_counter comms 0 this) as (this' & Hrun & Hlen & Hlast).
  { lia. }
  subst out. unfold fixFingersStart. rewrite Hrun; simpl.
  split; [done|]. split; [done|].
  split; [apply Z.mod_pos_bound; lia|]. done.
Qed.

(** C5 at a fresh node (eight fingers) after nine ticks without any
    reachable peer: the counter is 2 and finger 7 is as created. *)
Lemma fixFingers_round_robin_witness :
  let out := fixFingersRun (replicate 9 unreachable) fixFingersStart (new 10 None) in
  out.1 = Return (Num 2)
  /\ fingers out.2 !! 7%nat = Some (mkFinger 138 10).
Proof.
  assert (HM : (2 <= length (fingers (new 10 None)))%nat) by (vm_compute; lia).
  destruct (fixFingers_round_robin (replicate 9 unreachable) (new 10 None) HM)
    as (_ & Hcounter & _ & _ & Hlast).
  split; [exact Hcounter | exact Hlast].
Defined.

End FixFingersFacts.

(** ** The lifecycle *)

Section LifecycleFacts.
Import Lifecycle.

Lemma setLoop_active t l s : lifecycleActive (setLoop t l s) = lifecycleActive s.
Proof. by destruct t. Qed.

Lemma startLifecycle_active s : lifecycleActive (startLifecycle s).1 = true.
Proof. unfold startLifecycle. by destruct (lifecycleActive s) eqn:H. Qed.

(** No event resets the flag. *)
Lemma step_active s e :
  lifecycleActive s = true -> lifecycleActive (step s e) = true.
Proof.
  intros Hs. destruct e as [| |t|t|t]; simpl.
  - apply startLifecycle_active.
  - exact Hs.
  - destruct (loop t s); rewrite ?setLoop_active; exact Hs.
  - destruct (loop t s); rewrite ?setLoop_active; exact Hs.
  - destruct (loop t s); rewrite ?setLoop_active; exact Hs.
Qed.

Lemma run_active evs : forall s,
  lifecycleActive s = true -> lifecycleActive (run s evs) = true.
Proof.
  induction evs as [|e rest IH]; intros s Hs; simpl; [exact Hs|].
  apply IH, step_active, Hs.
Qed.

(** With the flag set, a cancelled loop is not touched by any event. *)
Lemma step_cleared s e t :
  lifecycleActive s = true -> loop t s = Cleared -> loop t (step s e) = Cleared.
Proof.
  intros Hs Ht. destruct e as [| |t'|t'|t']; simpl.
  - unfold startLifecycle. by rewrite Hs.
  - destruct t; simpl in *; by rewrite Ht.
  - destruct (loop t' s) eqn:Ht'; try done.
    destruct t, t'; simpl in *; congruence.
  - destruct (loop t' s) eqn:Ht'; try done.
    destruct t, t'; simpl in *; congruence.
  - destruct (loop t' s) eqn:Ht'; try done.
    destruct t, t'; simpl in *; congruence.
Qed.

Lemma run_cleared evs : forall s t,
  lifecycleActive s = true -> loop t s = Cleared -> loop t (run s evs) = Cleared.
Proof.
  induction evs as [|e rest IH]; intros s t Hs Ht; simpl; [exact Ht|].
  apply IH; [by apply step_active | by apply step_cleared].
Qed.

(** C10: after [startLifecycle] has been called once, whatever happens
    next (calls to start or stop, operations resolving or rejecting, timers
    firing), [lifecycleActive] is [true]; [stopLifecycle] leaves it [true];
    a further [startLifecycle] returns the state it found and starts no
    loop; and a loop whose timer was cancelled stays cancelled through
    everything that follows. *)
Theorem lifecycle_never_restarts (s : State) (evs : list Event) :
  let later := run (startLifecycle s).1 evs in
  lifecycleActive later = true
  /\ lifecycleActive (stopLifecycle later) = true
  /\ startLifecycle later = (later, [])
  /\ startLifecycle (stopLifecycle later) = (stopLifecycle later, [])
  /\ (forall t more,
         loop t later = Cleared -> loop t (run later more) = Cleared).
Proof.
  intros later.
  assert (Hactive : lifecycleActive later = true)
    by apply run_active, startLifecycle_active.
  split; [exact Hactive|]. split; [exact Hactive|].
  split; [unfold startLifecycle; by rewrite Hactive|].
  split; [unfold startLifecycle; simpl; by rewrite Hactive|].
  intros t more. by apply run_cleared.
Qed.

End LifecycleFacts.

(** C10 on a node started once and stopped while its three timers were
pending: starting it again changes nothing, and the stabilize loop stays
cancelled even if its old timer is said to fire. *)
Lemma lifecycle_never_restarts_witness :
  let later :=
    Lifecycle.run (Lifecycle.startLifecycle Lifecycle.initial).1
      [Lifecycle.Resolved Lifecycle.Stab; Lifecycle.Resolved Lifecycle.Fing;
       Lifecycle.Resolved Lifecycle.Pred; Lifecycle.CallStop] in
  Lifecycle.startLifecycle later = (later, [])
  /\ Lifecycle.loop Lifecycle.Stab
       (Lifecycle.run later [Lifecycle.CallStart; Lifecycle.Fired Lifecycle.Stab])
     = Lifecycle.Cleared.
Proof.
  destruct (lifecycle_never_restarts Lifecycle.initial
              [Lifecycle.Resolved Lifecycle.Stab; Lifecycle.Resolved Lifecycle.Fing;
               Lifecycle.Resolved Lifecycle.Pred; Lifecycle.CallStop])
    as (_ & _ & Hstart & _ & Hcleared).
  split; [exact Hstart | apply Hcleared; reflexivity].
Defined.

(** ** The scenarios of the specification, run on the model *)

Section Scenarios.
Import Js Chord Scenario.

(** How the two-node ring of [Scenario] comes about: node 10, alone, answers
the lookup of key 40 with its own id, which is what node 40 takes as its
successor; node 40 then answers the lookup of key 10 with its own id, which
is what node 10 takes as its successor. *)
Example node40_joins_through_10 :
  completion (findSuccessorForKey unreachable 40 (new 10 None)) = Return 10
  /\ successor node40 = 10 /\ successorList node40 = [10]
  /\ predecessor node40 = None.
Proof. by repeat split. Qed.

Example node10_joins_through_40 :
  completion (findSuccessorForKey unreachable 10 node40) = Return 40
  /\ node10 = set_successor 40 (new 10 None)
  /\ successor node10 = 40 /\ successorList node10 = [40].
Proof. by repeat split. Qed.

(** In the earlier revision a node that is its own successor but knows a
predecessor does ask that predecessor for a successor. *)
Example earlier_singleton_tick :
  let this := notify 40 (new 10 None) in
  let r := Earlier.stabilize node40Answers this in
  successor this = id this
  /\ sent r = [(40, FindSuccessorForId 10)] /\ successor (after r) = 40.
Proof. by repeat split. Qed.

(** A node alone answers every lookup with its own id, without any call. *)
Example single_node_lookup :
  findSuccessorForKey unreachable 33 (new 10 None) = (Return 10, new 10 None, []).
Proof. reflexivity. Qed.

(** Node 10 with successor 40: a key between them is the successor's. *)
Example two_node_lookup :
  completion (findSuccessorForKey unreachable 25 node10) = Return 40.
Proof. reflexivity. Qed.

(** A lookup that has to be forwarded: node 10 with successor 20 and one
finger pointing at 40 sends key 50 to node 40 and returns its answer. *)
Example forwarded_lookup :
  let this :=
    withFingers (set_successor 20 (new 10 None))
                (<[5%nat := mkFinger 42 40]> (fingers (new 10 None))) in
  let r := findSuccessorForKey node40Answers 50 this in
  completion r = Return 40 /\ sent r = [(40, FindSuccessorForId 50)].
Proof. by split. Qed.

(** Across the top of the ring nothing is found: node 60 with successor 5
keeps key 3 for itself, because neither [(60, 5]] nor [(60, 3)] contains
anything for [withinInterval]. *)
Example wrap_lookup :
  findSuccessorForKey unreachable 3 (set_successor 5 (new 60 None))
  = (Return 60, set_successor 5 (new 60 None), []).
Proof. reflexivity. Qed.

(** With a second entry in the list, a failed round moves on to it. *)
Example failover_to_next :
  let this := updateSuccesorsList [50] node10 in
  let r := stabilize unreachable this in
  successorList this = [40; 50]
  /\ successor (after r) = 50 /\ successorList (after r) = [50].
Proof. by repeat split. Qed.

(** A first entry 0 is passed over by [getBestSuccessor]. *)
Example best_successor_zero :
  getBestSuccessor (withSuccessorList (new 10 None) [0; 5]) = 10.
Proof. reflexivity. Qed.

End Scenarios.

(* ===================================================================== *)
(** * Further properties of the code *)
(* ===================================================================== *)

(** ** Intervals *)

Section IntervalBounds.

(** X1: [withinInterval] accepts a value only between the two bounds, so an
interval whose end lies below its start accepts nothing, whatever its
flags; and with start equal to end it accepts something only when both
flags are set, namely that single point. *)
Theorem withinInterval_between (x : Z) (i : Interval) :
  (withinInterval x i = true -> start i <= x <= end_ i)
  /\ (end_ i < start i -> withinInterval x i = false)
  /\ (start i = end_ i ->
      (withinInterval x i = true
       <-> x = start i /\ includeStart i = true /\ includeEnd i = true)).
Proof.
  unfold withinInterval.
  destruct (includeStart i), (includeEnd i); simpl;
    rewrite ?andb_true_iff, ?andb_false_iff; repeat split; try lia;
    intros; try (destruct (Z.leb_spec (start i) x), (Z.leb_spec x (end_ i)); lia);
    try (destruct (Z.leb_spec (start i) x), (Z.ltb_spec x (end_ i)); lia);
    try (destruct (Z.ltb_spec (start i) x), (Z.leb_spec x (end_ i)); lia);
    try (destruct (Z.ltb_spec (start i) x), (Z.ltb_spec x (end_ i)); lia).
Qed.

(** X2: the two half-open intervals [(a, b]] and [(b, a]] never both contain
a value, and one of them does exactly when the value lies above the smaller
and at most at the larger of the two bounds. *)
Theorem withinInterval_opposite_arcs (x a b : Z) :
  ~ (withinInterval x (openClosed a b) = true
     /\ withinInterval x (openClosed b a) = true)
  /\ (withinInterval x (openClosed a b) = true
      \/ withinInterval x (openClosed b a) = true
      <-> Z.min a b < x <= Z.max a b).
Proof. rewrite !withinInterval_openClosed. lia. Qed.

End IntervalBounds.

(** ** The order of the successor list *)

Section SuccessorOrder.
Import Js Chord Overlay Scenario.

Implicit Types (i a b c x y : Z) (l : list Z).

(** The comparator read as an order: ids above the node's own come first,
in increasing order, then the ids up to the node's own, in increasing
order. *)
Lemma before_iff i a b :
  before i a b <->
  (b <= i < a) \/ (((i < a /\ i < b) \/ (a <= i /\ b <= i)) /\ a < b).
Proof.
  unfold before, compareSuccessors.
  destruct (Z.gtb_spec a i), (Z.gtb_spec b i); simpl;
    destruct (Z.geb_spec (a - b) 0); lia.
Qed.

(** The comparator never answers 0. *)
Lemma compare_nonpos_before i a b :
  (compareSuccessors i a b <=? 0) = true -> before i a b.
Proof.
  unfold before, compareSuccessors. intros H. apply Z.leb_le in H.
  destruct (Z.gtb_spec a i), (Z.gtb_spec b i); simpl in *;
    destruct (Z.geb_spec (a - b) 0); lia.
Qed.

Lemma compare_pos_after i a b :
  (compareSuccessors i a b <=? 0) = false -> a <> b -> before i b a.
Proof.
  intros H Hab. apply before_iff.
  assert (Hnot : ~ before i a b).
  { unfold before. apply Z.leb_gt in H. lia. }
  rewrite before_iff in Hnot. lia.
Qed.

Lemma before_trans i a b c : before i a b -> before i b c -> before i a c.
Proof. rewrite !before_iff. lia. Qed.

Lemma before_asym i a b : before i a b -> before i b a -> False.
Proof. rewrite !before_iff. lia. Qed.

Lemma insertBy_sorted i x l :
  StronglySorted (before i) l -> x ∉ l ->
  StronglySorted (before i) (insertBy (compareSuccessors i) x l).
Proof.
  induction l as [|y r IH]; simpl; intros Hsorted Hx.
  - repeat constructor.
  - apply StronglySorted_cons in Hsorted as [Hy Hr].
    apply not_elem_of_cons in Hx as [Hxy Hxr].
    destruct (compareSuccessors i x y <=? 0) eqn:Hcmp.
    + apply compare_nonpos_before in Hcmp.
      apply StronglySorted_cons. split.
      * constructor; [done|].
        eapply Forall_impl; [exact Hy|]. intros z Hz. by eapply before_trans.
      * by apply StronglySorted_cons.
    + apply compare_pos_after in Hcmp; [|done].
      apply StronglySorted_cons. split; [|by apply IH].
      apply Forall_forall. intros z Hz.
      rewrite insertBy_Permutation in Hz.
      apply elem_of_cons in Hz as [->|Hz]; [done|].
      rewrite Forall_forall in Hy. by apply Hy.
Qed.

Lemma sortBy_sorted i l :
  NoDup l -> StronglySorted (before i) (sortBy (compareSuccessors i) l).
Proof.
  induction l as [|x r IH]; simpl; intros Hl; [constructor|].
  apply NoDup_cons in Hl as [Hx Hr].
  apply insertBy_sorted; [by apply IH|]. by rewrite elem_of_sortBy.
Qed.

Lemma sublist_sorted i l1 l2 :
  l1 `sublist_of` l2 -> StronglySorted (before i) l2 ->
  StronglySorted (before i) l1.
Proof.
  induction 1 as [|x l1 l2 Hsub IH|x l1 l2 Hsub IH]; intros Hsorted.
  - constructor.
  - apply StronglySorted_cons in Hsorted as [Hx Hl2].
    apply StronglySorted_cons. split; [|by apply IH].
    rewrite Forall_forall in Hx |- *. intros z Hz. apply Hx.
    by eapply elem_of_sublist.
  - apply StronglySorted_cons in Hsorted as [_ Hl2]. by apply IH.
Qed.

(** Two lists in comparator order, without duplicates and with the same
members, are the same list. *)
Lemma sorted_same_members i l1 l2 :
  NoDup l1 -> NoDup l2 ->
  StronglySorted (before i) l1 -> StronglySorted (before i) l2 ->
  (forall y, y ∈ l1 <-> y ∈ l2) -> l1 = l2.
Proof.
  intros Hd1 Hd2 Hs1 Hs2 Hmem.
  apply (StronglySorted_unique_strong (before i)); [|done|done|].
  - intros x1 x2 _ _ H12 H21. by destruct (before_asym i x1 x2).
  - by apply NoDup_Permutation.
Qed.

(** The array before truncation. *)
Lemma merged_sorted (this : Node) newList :
  let full := sortBy (compareSuccessors (id this))
                     (arrayFromSet (newList ++ successorList this)) in
  NoDup full /\ StronglySorted (before (id this)) full
  /\ (forall y, y ∈ full <-> y ∈ newList \/ y ∈ successorList this)
  /\ successorList (updateSuccesorsList newList this)
     = take MAX_SUCCESSORS_LIST_LENGTH full.
Proof.
  intros full. split; [apply sortBy_NoDup, arrayFromSet_NoDup|].
  split; [apply sortBy_sorted, arrayFromSet_NoDup|]. split; [|done].
  intros y. subst full.
  by rewrite elem_of_sortBy, elem_of_arrayFromSet, elem_of_app.
Qed.

(** X3: whatever the candidates and the list held before,
[updateSuccesorsList] leaves a list of at most three ids, without
duplicates, in the order of the comparator: the ids above the node's own in
increasing order, followed by the ids not above it in increasing order. *)
Theorem updateSuccesorsList_shape (newList : list Id) (this : Node) :
  let l := successorList (updateSuccesorsList newList this) in
  (length l <= MAX_SUCCESSORS_LIST_LENGTH)%nat
  /\ NoDup l
  /\ StronglySorted (before (id this)) l
  /\ (forall a b, before (id this) a b <->
        (b <= id this < a)
        \/ (((id this < a /\ id this < b) \/ (a <= id this /\ b <= id this))
            /\ a < b)).
Proof.
  intros l. destruct (merged_sorted this newList) as (Hd & Hs & _ & Hl).
  subst l. rewrite Hl. split; [rewrite length_take; lia|]. split.
  - eapply sublist_NoDup; [exact Hd | apply sublist_take].
  - split; [|intros a b; apply before_iff].
    eapply sublist_sorted; [apply sublist_take | exact Hs].
Qed.

(** X4: truncation drops the far end only.  An id that was a candidate or in
the old list and is missing afterwards was cut off from a full list, and
each of the three ids kept is in front of it in the comparator's order. *)
Theorem updateSuccesorsList_keeps_nearest (newList : list Id) (this : Node) (y : Id) :
  y ∈ newList \/ y ∈ successorList this ->
  y ∉ successorList (updateSuccesorsList newList this) ->
  length (successorList (updateSuccesorsList newList this))
  = MAX_SUCCESSORS_LIST_LENGTH
  /\ (forall x, x ∈ successorList (updateSuccesorsList newList this) ->
                before (id this) x y).
Proof.
  intros Hy Hmissing.
  destruct (merged_sorted this newList) as (Hd & Hs & Hmem & Hl).
  set (full := sortBy _ _) in *. rewrite Hl in *.
  apply Hmem in Hy.
  rewrite <- (take_drop MAX_SUCCESSORS_LIST_LENGTH full) in Hy, Hs.
  apply elem_of_app in Hy as [Hy|Hy]; [done|].
  split.
  - apply length_take_le.
    destruct (decide (MAX_SUCCESSORS_LIST_LENGTH <= length full)%nat) as [|Hshort];
      [done|].
    rewrite drop_ge in Hy by lia. by apply elem_of_nil in Hy.
  - intros x Hx. by eapply StronglySorted_app_1_elem_of.
Qed.

(** X4 on node 10 holding [[40; 50; 60]]: the candidate 5 lies behind them
all (it is below 10) and is the one cut off; 60, which is kept, is in front
of it. *)
Lemma updateSuccesorsList_keeps_nearest_witness :
  before 10 60 5.
Proof.
  assert (Hy : 5 ∈ [5] \/ 5 ∈ successorList (updateSuccesorsList [40; 50; 60] (new 10 None)))
    by (left; by left).
  assert (Hmissing : 5 ∉ successorList
                         (updateSuccesorsList [5]
                            (updateSuccesorsList [40; 50; 60] (new 10 None)))).
  { vm_compute. intros Hin.
    repeat (apply elem_of_cons in Hin as [Hin|Hin]; [lia|]).
    by apply elem_of_nil in Hin. }
  apply (updateSuccesorsList_keeps_nearest
           [5] (updateSuccesorsList [40; 50; 60] (new 10 None)) 5 Hy Hmissing).
  vm_compute. do 2 right. by left.
Defined.

(** X5: the result of [updateSuccesorsList] depends on the ids offered and
held, not on their order or repetition; and merging ids that are all in
the list already leaves a list that is in merged form (at most three ids,
no duplicates, in comparator order) exactly as it is. *)
Theorem updateSuccesorsList_by_members (l1 l2 : list Id) (this : Node) :
  ((forall y, y ∈ l1 \/ y ∈ successorList this
              <-> y ∈ l2 \/ y ∈ successorList this) ->
   updateSuccesorsList l1 this = updateSuccesorsList l2 this)
  /\ ((forall y, y ∈ l1 -> y ∈ successorList this) ->
      (length (successorList this) <= MAX_SUCCESSORS_LIST_LENGTH)%nat ->
      NoDup (successorList this) ->
      StronglySorted (before (id this)) (successorList this) ->
      updateSuccesorsList l1 this = this).
Proof.
  destruct (merged_sorted this l1) as (Hd1 & Hs1 & Hm1 & _).
  destruct (merged_sorted this l2) as (Hd2 & Hs2 & Hm2 & _).
  split.
  - intros Hsame. unfold updateSuccesorsList. do 2 f_equal.
    apply (sorted_same_members (id this)); [done..|].
    intros y. rewrite Hm1, Hm2. apply Hsame.
  - intros Hin Hlen Hd Hs. unfold updateSuccesorsList.
    replace (sortBy _ _) with (successorList this).
    + rewrite take_ge by done. by destruct this.
    + apply (sorted_same_members (id this)); [done..|].
      intros y. rewrite Hm1. split; [auto | intros [?|?]; auto].
Qed.

(** On ids of the ring the comparator's order is distance walked forward
from the id after the node's own (so that the node itself is the farthest
point). *)
Lemma before_ring_distance i a b :
  let N := 2 ^ Z.of_nat KEY_BITS in
  0 <= i < N -> 0 <= a < N -> 0 <= b < N ->
  (before i a b <-> (a - i - 1) `mod` N < (b - i - 1) `mod` N).
Proof.
  intros N Hi Ha Hb. rewrite before_iff.
  assert (Hdist : forall n, 0 <= n < N ->
            (n - i - 1) `mod` N = if decide (i < n) then n - i - 1 else n - i - 1 + N).
  { intros n Hn. destruct (decide (i < n)).
    - apply Z.mod_small. lia.
    - transitivity (((n - i - 1 + N) + (-1) * N) `mod` N); [f_equal; lia|].
      rewrite Z_mod_plus_full. apply Z.mod_small. lia. }
  rewrite (Hdist a Ha), (Hdist b Hb).
  destruct (decide (i < a)), (decide (i < b)); lia.
Qed.

Lemma StronglySorted_members {A : Type} (R R' : relation A) (k : list A) :
  StronglySorted R k ->
  (forall u v : A, u ∈ k -> v ∈ k -> R u v -> R' u v) ->
  StronglySorted R' k.
Proof.
  induction 1 as [|u k Hk IH Hu]; intros HRR'; [constructor|].
  constructor.
  - apply IH. intros v w Hv Hw. apply HRR'; by right.
  - rewrite Forall_forall in Hu |- *. intros v Hv.
    apply HRR'; [by left | by right | by apply Hu].
Qed.

(** X6: when the node's id, the candidates and the ids already held are all
ring ids (in [[0, 2^KEY_BITS)]), the list left by [updateSuccesorsList] is
strictly increasing in forward distance on the ring, the distance being
counted from the id that follows the node's own. *)
Theorem updateSuccesorsList_ring_order (newList : list Id) (this : Node) :
  let N := 2 ^ Z.of_nat KEY_BITS in
  0 <= id this < N ->
  (forall y, y ∈ newList \/ y ∈ successorList this -> 0 <= y < N) ->
  StronglySorted
    (fun a b => (a - id this - 1) `mod` N < (b - id this - 1) `mod` N)
    (successorList (updateSuccesorsList newList this)).
Proof.
  intros N Hid Hrange.
  pose proof (elem_of_updateSuccesorsList newList this) as Horigin.
  destruct (merged_sorted this newList) as (_ & Hs & _ & Hl).
  assert (Hsorted : StronglySorted (before (id this))
                      (successorList (updateSuccesorsList newList this))).
  { rewrite Hl. eapply sublist_sorted; [apply sublist_take | exact Hs]. }
  eapply StronglySorted_members; [exact Hsorted|].
  intros a b Ha Hb Hab.
  apply before_ring_distance; auto.
Qed.

(** X6 on node 200 offered 250, 3 and 90: 250 is 49 steps ahead, 3 is 58
steps ahead (past the top of the ring), 90 is 145 steps ahead. *)
Lemma updateSuccesorsList_ring_order_witness :
  successorList (updateSuccesorsList [3; 90; 250] (new 200 None)) = [250; 3; 90]
  /\ StronglySorted
       (fun a b => (a - 200 - 1) `mod` 256 < (b - 200 - 1) `mod` 256)
       (successorList (updateSuccesorsList [3; 90; 250] (new 200 None))).
Proof.
  split; [reflexivity|].
  apply (updateSuccesorsList_ring_order [3; 90; 250] (new 200 None)).
  - vm_compute. split; [discriminate | reflexivity].
  - intros y [Hy|Hy].
    + repeat (apply elem_of_cons in Hy as [->|Hy];
              [vm_compute; split; [discriminate | reflexivity]|]).
      by apply elem_of_nil in Hy.
    + by apply elem_of_nil in Hy.
Defined.

End SuccessorOrder.

(** ** The setter of the successor, the finger table and routing *)

Section RoutingFacts.
Import Js Chord Overlay Scenario.

(** X7: [set successor] makes [succ] the successor and recomputes [dead]
from it.  On a list without duplicates the previous successor is no longer
listed afterwards (unless it is assigned again); the new successor is
listed whenever fewer than three ids remain once the previous successor
has been taken out; nothing else of the node changes. *)
Theorem set_successor_effect (succ : Id) (this : Node) :
  let this' := set_successor succ this in
  successor this' = succ
  /\ dead this' = (succ =? id this) && negb (truthy (predecessor this))
  /\ sameElsewhere this' this
  /\ (NoDup (successorList this) -> successor this <> succ ->
      successor this ∉ successorList this')
  /\ ((length (spliceOut (successorList this) (successor this))
       < MAX_SUCCESSORS_LIST_LENGTH)%nat ->
      succ ∈ successorList this').
Proof.
  intros this'. subst this'. unfold set_successor.
  set (cut := spliceOut (successorList this) (_successor this)).
  destruct (negb (includes _ succ)) eqn:Hin; simpl in Hin.
  - apply negb_true_iff, includes_false in Hin. fold cut in Hin.
    split; [done|]. split; [done|]. split; [by repeat split|]. split.
    + intros Hnodup Hne Hold.
      apply elem_of_updateSuccesorsList in Hold as [Hold|Hold]; simpl in Hold.
      * apply list_elem_of_singleton in Hold. done.
      * by apply (spliceOut_NoDup _ (_successor this)) in Hnodup.
    + intros Hroom. simpl. fold cut.
      set (full := sortBy _ _).
      assert (Hlen : (length full <= MAX_SUCCESSORS_LIST_LENGTH)%nat).
      { subst full. rewrite sortBy_Permutation.
        etrans; [apply arrayFromSet_length|]. simpl.
        fold cut. unfold successor in Hroom. fold cut in Hroom. lia. }
      rewrite take_ge by done. subst full.
      rewrite elem_of_sortBy, elem_of_arrayFromSet. by left.
  - apply negb_false_iff, includes_true in Hin. simpl in Hin. fold cut in Hin.
    split; [done|]. split; [done|]. split; [by repeat split|]. split.
    + intros Hnodup _. simpl. by apply spliceOut_NoDup.
    + intros _. done.
Qed.

(** X7 on node 10 with successor 40 listed: assigning 50 drops 40. *)
Lemma set_successor_effect_witness :
  40 ∉ successorList (set_successor 50 node10).
Proof.
  assert (Hnodup : NoDup (successorList node10)).
  { vm_compute. apply NoDup_singleton. }
  assert (Hne : successor node10 <> 50) by (vm_compute; discriminate).
  apply (set_successor_effect 50 node10); assumption.
Defined.

(** X8: a node created with a non-negative id has [KEY_BITS] fingers; the
finger at index [j] has the key [(id + 2^j) mod 2^KEY_BITS], a ring id, and
points to the node itself. *)
Theorem createFingerTable_shape (selfId : Id) (j : nat) :
  0 <= selfId -> (j < KEY_BITS)%nat ->
  length (createFingerTable selfId) = KEY_BITS
  /\ createFingerTable selfId !! j
     = Some (mkFinger ((selfId + 2 ^ Z.of_nat j) `mod` 2 ^ Z.of_nat KEY_BITS) selfId)
  /\ 0 <= (selfId + 2 ^ Z.of_nat j) `mod` 2 ^ Z.of_nat KEY_BITS
     < 2 ^ Z.of_nat KEY_BITS.
Proof.
  intros Hid Hj. unfold createFingerTable, shell.
  split; [by rewrite length_imap, length_replicate|]. split.
  - rewrite list_lookup_imap, lookup_replicate_2 by done. simpl.
    unfold generateFingerId. rewrite Z.rem_mod_nonneg; [done| |done].
    assert (0 < 2 ^ Z.of_nat j) by (apply Z.pow_pos_nonneg; lia). lia.
  - apply Z.mod_pos_bound. done.
Qed.

(** X8 on node 250: its seventh finger starts at (250 + 64) mod 256 = 58. *)
Lemma createFingerTable_shape_witness :
  createFingerTable 250 !! 6%nat = Some (mkFinger 58 250).
Proof.
  assert (Hid : 0 <= 250) by lia.
  assert (Hj : (6 < KEY_BITS)%nat) by (vm_compute; lia).
  apply (createFingerTable_shape 250 6 Hid Hj).
Defined.

(** What lodash's [findLastIndex] finds. *)
Lemma findLastIndex_Some {A : Type} (p : A -> bool) (l : list A) (j : nat) :
  findLastIndex p l = Some j ->
  (exists u, l !! j = Some u /\ p u = true)
  /\ (forall j' v, (j < j')%nat -> l !! j' = Some v -> p v = false).
Proof.
  revert j. induction l as [|u r IH]; intros j; simpl; [done|].
  destruct (findLastIndex p r) as [j0|] eqn:Hr.
  - intros [= <-]. destruct (IH j0 eq_refl) as [Hfound Hlater]. split; [done|].
    intros [|j'] v Hlt; [lia|]. simpl. apply Hlater. lia.
  - destruct (p u) eqn:Hu; [|done]. intros [= <-]. split; [by exists u|].
    intros [|j'] v Hlt; [lia|]. simpl. intros Hv.
    clear IH. revert j' Hv Hlt. induction r as [|w r IHr]; intros j' Hv _; [done|].
    simpl in Hr. destruct (findLastIndex p r) eqn:Hr'; [done|].
    destruct (p w) eqn:Hw; [done|].
    destruct j' as [|j']; simpl in Hv; [by injection Hv as <-|].
    eapply IHr; [done | exact Hv | lia].
Qed.

Lemma findLastIndex_None {A : Type} (p : A -> bool) (l : list A) :
  findLastIndex p l = None -> forall u, u ∈ l -> p u = false.
Proof.
  induction l as [|w r IH]; simpl; intros Hnone u Hu.
  - by apply elem_of_nil in Hu.
  - destruct (findLastIndex p r); [done|]. destruct (p w) eqn:Hw; [done|].
    apply elem_of_cons in Hu as [->|Hu]; [done | by apply IH].
Qed.

(** The two outcomes of the scan over the fingers. *)
Lemma getClosestPrecedingNode_cases (this : Node) (k : Id) :
  let n := getClosestPrecedingNode this k in
  (n = id this
   /\ forall f, f ∈ fingers this -> ~ (id this < nodeId f < k))
  \/ (exists j f,
         fingers this !! j = Some f /\ nodeId f = n /\ id this < n < k
         /\ forall j' f', (j < j')%nat -> fingers this !! j' = Some f' ->
                          ~ (id this < nodeId f' < k)).
Proof.
  intros n. subst n. unfold getClosestPrecedingNode.
  destruct (findLastIndex _ (fingers this)) as [j|] eqn:Hfind.
  - right. apply findLastIndex_Some in Hfind as [(f & Hf & Hin) Hlater].
    apply withinInterval_open in Hin.
    exists j, f. rewrite Hf. repeat split; try done; try lia.
    intros j' f' Hlt Hf' Hwithin.
    apply withinInterval_open in Hwithin.
    by rewrite (Hlater j' f' Hlt Hf') in Hwithin.
  - left. split; [done|]. intros f Hf Hwithin.
    apply withinInterval_open in Hwithin.
    by rewrite (findLastIndex_None _ _ Hfind f Hf) in Hwithin.
Qed.

(** X9: [getClosestPrecedingNode] returns either the node's own id, when no
finger points strictly between the node and the key, or the node pointed
to by the finger of highest index that does; the answer is then strictly
between the node's id and the key, so for a key not above [id + 1] it is
always the node's own id. *)
Theorem getClosestPrecedingNode_spec (this : Node) (k : Id) :
  let n := getClosestPrecedingNode this k in
  ((n = id this
    /\ forall f, f ∈ fingers this -> ~ (id this < nodeId f < k))
   \/ (exists j f,
          fingers this !! j = Some f /\ nodeId f = n /\ id this < n < k
          /\ forall j' f', (j < j')%nat -> fingers this !! j' = Some f' ->
                           ~ (id this < nodeId f' < k)))
  /\ (k <= id this + 1 -> n = id this).
Proof.
  intros n. split; [apply getClosestPrecedingNode_cases|].
  intros Hk. destruct (getClosestPrecedingNode_cases this k) as [[Hn _]|Hsome];
    [done|].
  destruct Hsome as (_ & _ & _ & _ & Hbetween & _). fold n in Hbetween. lia.
Qed.

(** X10: a lookup sends at most one call, and only to a node that one of
its fingers points to strictly between its own id and the key, never to
itself.  For a key that is not above the node's own id nothing is sent and
the answer is the node's own id, whatever the successor and the fingers. *)
Theorem findSuccessorForKey_routing (comm : Communication) (this : Node) (k : Id) :
  let r := findSuccessorForKey comm k this in
  (length (sent r) <= 1)%nat
  /\ (forall target req, (target, req) ∈ sent r ->
        req = FindSuccessorForId k /\ id this < target < k
        /\ exists f, f ∈ fingers this /\ nodeId f = target)
  /\ (k <= id this -> r = (Return (id this), this, [])).
Proof.
  intros r. subst r.
  destruct (getClosestPrecedingNode_cases this k) as [[Hn Hnone]|Hsome].
  - assert (Hr :
               withinInterval k (openClosed (id this) (successor this)) = false ->
               findSuccessorForKey comm k this = (Return (id this), this, [])).
    { intros Hout. unfold findSuccessorForKey, bind, self; simpl.
      rewrite Hout, Hn, Z.eqb_refl. reflexivity. }
    destruct (withinInterval k (openClosed (id this) (successor this))) eqn:Hin.
    + assert (Hr' : findSuccessorForKey comm k this
                    = (Return (successor this), this, [])).
      { unfold findSuccessorForKey, bind, self; simpl. by rewrite Hin. }
      rewrite Hr'. unfold sent; simpl. split; [lia|]. split.
      * intros ?? Hcall. by apply elem_of_nil in Hcall.
      * apply withinInterval_openClosed in Hin. lia.
    + rewrite (Hr eq_refl). unfold sent; simpl. split; [lia|]. split; [|done].
      intros ?? Hcall. by apply elem_of_nil in Hcall.
  - destruct Hsome as (j & f & Hf & Hnode & Hbetween & _).
    unfold findSuccessorForKey, bind, self, sent; simpl.
    destruct (withinInterval k (openClosed (id this) (successor this))) eqn:Hin;
      simpl.
    + split; [lia|]. split.
      * intros ?? Hcall. by apply elem_of_nil in Hcall.
      * apply withinInterval_openClosed in Hin. lia.
    + destruct (Z.eqb_spec (getClosestPrecedingNode this k) (id this)) as [|_];
        [lia|].
      unfold tryCatch, requestSuccessor, await, ret.
      destruct (commFindSuccessorForId comm this _ k); simpl;
        (split; [lia|]); (split; [|lia]);
        intros target req Hcall%list_elem_of_singleton;
        injection Hcall as -> ->; (split; [done|]); (split; [lia|]);
        exists f; (split; [by eapply list_elem_of_lookup_2 | done]).
Qed.

(** X10 on node 10 asked for key 7. *)
Lemma findSuccessorForKey_routing_witness :
  findSuccessorForKey node40Answers 7 node10 = (Return 10, node10, []).
Proof.
  apply (findSuccessorForKey_routing node40Answers node10 7).
  vm_compute. discriminate.
Defined.

End RoutingFacts.

(** ** Stabilize, join, notify and the predecessor check *)

Section MaintenanceFacts.
Import Js Chord Overlay Scenario.

(** The round of [stabilize], answer by answer. *)
Lemma stabilizeRound_cases (comm : Communication) (this : Node) :
  let s0 := successor this in
  match commGetPredecessor comm this s0 with
  | None => stabilizeRound comm this = (Throw, this, [(s0, GetPredecessor)])
  | Some preId =>
      let this1 :=
        match preId with
        | Some p =>
            if truthy preId && withinInterval p (open_ (id this) s0)
            then set_successor p this else this
        | None => this
        end in
      let s1 := successor this1 in
      match commNotify comm this1 s1 (id this1) with
      | None =>
          stabilizeRound comm this
          = (Throw, this1, [(s0, GetPredecessor); (s1, Notify (id this1))])
      | Some _ =>
          match commGetSuccessorsList comm this1 s1 with
          | None =>
              stabilizeRound comm this
              = (Throw, this1,
                 [(s0, GetPredecessor); (s1, Notify (id this1));
                  (s1, GetSuccessorsList)])
          | Some l =>
              stabilizeRound comm this
              = (Return tt, updateSuccesorsList l this1,
                 [(s0, GetPredecessor); (s1, Notify (id this1));
                  (s1, GetSuccessorsList)])
          end
      end
  end.
Proof.
  unfold stabilizeRound, bind, self, await, update, ret; simpl.
  destruct (commGetPredecessor comm this (successor this)) as [[p|]|];
    simpl; [| |done].
  - destruct (_ && withinInterval p _); simpl;
      destruct (commNotify comm _ _ _) as [[]|]; simpl; try done;
      by destruct (commGetSuccessorsList comm _ _).
  - destruct (commNotify comm _ _ _) as [[]|]; simpl; try done.
    by destruct (commGetSuccessorsList comm _ _).
Qed.

(** The successor a round works with after the first answer: the old one, or
the reported predecessor when that lies strictly between. *)
Lemma stabilizeRound_successor (comm : Communication) (this : Node) :
  let r := stabilizeRound comm this in
  (successor (after r) = successor this
   \/ id this < successor (after r) < successor this)
  /\ id (after r) = id this
  /\ (length (sent r) <= 3)%nat
  /\ (forall call, call ∈ sent r ->
        call.1 = successor this \/ call.1 = successor (after r))
  /\ (completion r = Return tt ->
      sent r = [(successor this, GetPredecessor);
                (successor (after r), Notify (id this));
                (successor (after r), GetSuccessorsList)]).
Proof.
  intros r. subst r. pose proof (stabilizeRound_cases comm this) as Hcases.
  simpl in Hcases.
  destruct (commGetPredecessor comm this (successor this)) as [preId|];
    [|rewrite Hcases; unfold after, sent, completion; simpl;
      repeat split; try (by left); try lia; try done;
      intros call ->%list_elem_of_singleton; by left].
  set (this1 := match preId with Some p => _ | None => _ end) in *.
  assert (Hthis1 : (successor this1 = successor this
                    \/ id this < successor this1 < successor this)
                   /\ id this1 = id this).
  { subst this1. destruct preId as [p|]; [|by split; [left|]].
    destruct (truthy (Some p) && withinInterval p _) eqn:Hadopt;
      [|by split; [left|]].
    apply andb_true_iff in Hadopt as [_ Hin].
    apply withinInterval_open in Hin.
    destruct (set_successor_elsewhere p this) as [[Hid _] Hsucc].
    rewrite Hsucc, Hid. unfold successor in *. split; [right; lia | done]. }
  destruct Hthis1 as [Hsucc Hid].
  assert (Hcalls : forall calls : list Call,
             (forall call, call ∈ calls ->
                call.1 = successor this \/ call.1 = successor this1) ->
             forall call, call ∈ calls ->
                call.1 = successor this \/ call.1 = successor this1) by auto.
  destruct (commNotify comm this1 (successor this1) (id this1)) as [[]|].
  - destruct (commGetSuccessorsList comm this1 (successor this1)) as [l|];
      rewrite Hcases; unfold after, sent, completion; simpl; rewrite ?Hid;
      (split; [done|]); (split; [done|]); (split; [lia|]); (split; [|done]);
      intros call Hcall;
      repeat (apply elem_of_cons in Hcall as [->|Hcall]; [auto|]);
      by apply elem_of_nil in Hcall.
  - rewrite Hcases; unfold after, sent, completion; simpl; rewrite ?Hid.
    (split; [done|]); (split; [done|]); (split; [lia|]); (split; [|done]).
    intros call Hcall.
    repeat (apply elem_of_cons in Hcall as [->|Hcall]; [auto|]).
    by apply elem_of_nil in Hcall.
Qed.

(** X11: a round of [stabilize] that completes ends with the successor it
started with or with one strictly between the node and that successor (the
predecessor the old successor reported); it has sent [GetPredecessor] to the
old successor, then [Notify] with the node's id and [GetSuccessorsList] to
the successor it ends with. *)
Theorem stabilizeRound_completed (comm : Communication) (this : Node) :
  completion (stabilizeRound comm this) = Return tt ->
  let this' := after (stabilizeRound comm this) in
  (successor this' = successor this
   \/ id this < successor this' < successor this)
  /\ sent (stabilizeRound comm this)
     = [(successor this, GetPredecessor);
        (successor this', Notify (id this));
        (successor this', GetSuccessorsList)].
Proof.
  intros Hdone this'.
  destruct (stabilizeRound_successor comm this) as (Hsucc & _ & _ & _ & Hsent).
  split; [exact Hsucc | by apply Hsent].
Qed.

(** X11 on node 10 with successor 40, answered by node 40. *)
Lemma stabilizeRound_completed_witness :
  sent (stabilizeRound node40Answers node10)
  = [(40, GetPredecessor); (40, Notify 10); (40, GetSuccessorsList)].
Proof.
  assert (Hdone : completion (stabilizeRound node40Answers node10) = Return tt)
    by reflexivity.
  apply (stabilizeRound_completed node40Answers node10 Hdone).
Defined.

(** X12: [stabilize] never throws, whatever the transport does.  It sends at
most three calls, each to the successor it started with or to the one it
ends the round with, and it writes [successor], [successorList] and [dead]
only: [id], [predecessor], [fingers], [storage] and [logging] are
untouched. *)
Theorem stabilize_never_throws (comm : Communication) (this : Node) :
  let r := stabilize comm this in
  completion r = Return tt
  /\ sameElsewhere (after r) this
  /\ (length (sent r) <= 3)%nat
  /\ (forall call, call ∈ sent r ->
        call.1 = successor this \/ id this < call.1 < successor this).
Proof.
  intros r. subst r.
  destruct (stabilizeRound_successor comm this)
    as (Hsucc & _ & Hlen & Htargets & _).
  pose proof (stabilizeRound_keeps comm this) as Hkeep.
  unfold stabilize, bind, self; simpl.
  destruct (successor this =? id this); simpl.
  { unfold completion, after, sent; simpl. split; [done|].
    split; [apply sameElsewhere_refl|]. split; [lia|].
    intros call Hcall. by apply elem_of_nil in Hcall. }
  unfold tryCatch.
  destruct (stabilizeRound comm this) as [[[[]|] this1] calls] eqn:Hround;
    unfold completion, after, sent in *; simpl in *.
  - split; [done|]. split; [done|]. split; [done|].
    intros call Hcall. destruct (Htargets call Hcall) as [?|Hcall']; [by left|].
    rewrite Hcall'. destruct Hsucc as [->|?]; [by left | by right].
  - pose proof (stabilizeFailed_keeps this1) as Hkeep'.
    unfold stabilizeFailed, bind, update, self, after in *; simpl in *.
    rewrite ?app_nil_r. split; [done|]. split.
    { by eapply sameElsewhere_trans. }
    split; [done|].
    intros call Hcall. destruct (Htargets call Hcall) as [?|Hcall']; [by left|].
    rewrite Hcall'. destruct Hsucc as [->|?]; [by left | by right].
Qed.

(** X13: [joinNode] sends one [FindSuccessorForId] for the node's own id to
the target.  A rejected call is not caught: the method throws and the node
is as it was.  An answer is assigned through [set successor]; on a node
that was just created the answer becomes the successor and the only entry
of the successor list, while the predecessor stays unknown. *)
Theorem joinNode_outcome (comm : Communication) (targetNodeId : Id) (this : Node) :
  let r := joinNode comm targetNodeId this in
  sent r = [(targetNodeId, FindSuccessorForId (id this))]
  /\ match commFindSuccessorForId comm this targetNodeId (id this) with
     | None => completion r = Throw /\ after r = this
     | Some answer =>
         completion r = Return tt /\ after r = set_successor answer this
         /\ (forall selfId succ, this = new selfId succ ->
               successor (after r) = answer
               /\ successorList (after r) = [answer]
               /\ predecessor (after r) = None)
     end.
Proof.
  intros r. subst r. unfold joinNode, bind, self, await, update; simpl.
  destruct (commFindSuccessorForId comm this targetNodeId (id this)) as [answer|];
    unfold sent, completion, after; simpl; [|done].
  split; [done|]. split; [done|]. split; [done|].
  intros selfId succ ->. by repeat split.
Qed.

(** X14: [notify] writes through [set predecessor] only.  When no
predecessor is known (or the known one is 0) the caller is adopted; a
known predecessor [p] is replaced exactly when the caller lies strictly
between [p] and the node, so a known predecessor never moves down. *)
Theorem notify_effect (x : Id) (this : Node) :
  let this' := notify x this in
  id this' = id this /\ successor this' = successor this
  /\ successorList this' = successorList this /\ fingers this' = fingers this
  /\ storage this' = storage this /\ logging this' = logging this
  /\ (truthy (predecessor this) = false -> predecessor this' = Some x)
  /\ (forall p, predecessor this = Some p -> p <> 0 ->
        (p < x < id this -> predecessor this' = Some x)
        /\ (~ (p < x < id this) -> this' = this)
        /\ exists q, predecessor this' = Some q /\ p <= q).
Proof.
  intros this'. subst this'. unfold notify.
  destruct (predecessor this) as [p|] eqn:Hpred; simpl.
  - destruct (Z.eqb_spec p 0) as [->|Hp]; simpl.
    + repeat split; try done; intros; simplify_eq.
    + destruct (withinInterval x (open_ p (id this))) eqn:Hin.
      * apply withinInterval_open in Hin.
        repeat split; try done; intros; simplify_eq; try lia.
        exists x. split; [done | lia].
      * apply not_true_iff_false in Hin. rewrite withinInterval_open in Hin.
        repeat split; try done; intros; simplify_eq; try lia.
        eexists. split; [done | lia].
  - repeat split; try done.
Qed.

(** X14 on node 50 that knows predecessor 20, notified by 30. *)
Lemma notify_effect_witness :
  predecessor (notify 30 (notify 20 (new 50 None))) = Some 30.
Proof.
  assert (Hpred : predecessor (notify 20 (new 50 None)) = Some 20) by reflexivity.
  assert (Hp : 20 <> 0) by lia.
  apply (notify_effect 30 (notify 20 (new 50 None))) with (p := 20);
    [exact Hpred | exact Hp | vm_compute; split; reflexivity].
Defined.

(** X15: [checkPredecessor] never throws.  Without a predecessor (or with
predecessor 0) it sends nothing and changes nothing; otherwise it sends one
[Ping] to the predecessor, leaves the node alone when the ping is answered
and, when it is rejected, forgets the predecessor through
[set predecessor], which recomputes [dead]. *)
Theorem checkPredecessor_outcome (comm : Communication) (this : Node) :
  let r := checkPredecessor comm this in
  completion r = Return tt
  /\ (truthy (predecessor this) = false -> after r = this /\ sent r = [])
  /\ (forall p, predecessor this = Some p -> p <> 0 ->
        sent r = [(p, Ping)]
        /\ match commPing comm this p with
           | Some _ => after r = this
           | None =>
               after r = set_predecessor None this
               /\ predecessor (after r) = None
               /\ dead (after r) = (successor this =? id this)
           end).
Proof.
  intros r. subst r. unfold checkPredecessor, bind, self; simpl.
  destruct (predecessor this) as [p|] eqn:Hpred; simpl.
  - destruct (Z.eqb_spec p 0) as [->|Hp]; simpl.
    + repeat split; try done; intros; simplify_eq.
    + unfold tryCatch, await, update, completion, after, sent; simpl.
      destruct (commPing comm this p) as [[]|] eqn:Hping; simpl.
      * repeat split; try done; intros; simplify_eq; try done.
        by rewrite Hping.
      * repeat split; try done; intros; simplify_eq; try done.
        rewrite Hping. repeat split.
        unfold set_predecessor, isDead; simpl. by rewrite andb_true_r.
  - repeat split; try done.
Qed.

(** X15 on node 50 with predecessor 20 when nobody answers. *)
Lemma checkPredecessor_outcome_witness :
  sent (checkPredecessor unreachable (notify 20 (new 50 None))) = [(20, Ping)].
Proof.
  assert (Hpred : predecessor (notify 20 (new 50 None)) = Some 20) by reflexivity.
  assert (Hp : 20 <> 0) by lia.
  destruct (checkPredecessor_outcome unreachable (notify 20 (new 50 None)))
    as (_ & _ & Hping).
  apply (Hping 20 Hpred Hp).
Defined.

End MaintenanceFacts.

(** ** What every history of a node keeps *)

Section HistoryFacts.
Import Js Chord Overlay Scenario.

Lemma nodeOk_new selfId succ : nodeOk selfId (new selfId succ).
Proof.
  unfold nodeOk, new; simpl.
  split_and!; try done; try lia; [apply NoDup_nil_2 | apply SSorted_nil].
Qed.

Lemma nodeOk_updateSuccesorsList selfId newList this :
  nodeOk selfId this -> nodeOk selfId (updateSuccesorsList newList this).
Proof.
  intros (Hid & Hst & Hkeys & Hlast & _ & _ & _ & Hdead).
  destruct (merged_sorted this newList) as (Hd & Hs & _ & Hl).
  unfold nodeOk. rewrite Hl. subst selfId. split_and!; try done.
  - rewrite length_take. lia.
  - eapply sublist_NoDup; [exact Hd | apply sublist_take].
  - eapply sublist_sorted; [apply sublist_take | exact Hs].
Qed.

Lemma nodeOk_spliceOut selfId x this :
  nodeOk selfId this ->
  nodeOk selfId (withSuccessorList this (spliceOut (successorList this) x)).
Proof.
  intros (Hid & Hst & Hkeys & Hlast & Hlen & Hnodup & Hsorted & Hdead).
  assert (Hsub : spliceOut (successorList this) x `sublist_of` successorList this).
  { unfold spliceOut. destruct (indexOf _ x); [apply sublist_delete | done]. }
  repeat split; simpl; try done.
  - apply sublist_length in Hsub. lia.
  - by eapply sublist_NoDup.
  - by eapply sublist_sorted.
Qed.

Lemma nodeOk_set_successor selfId succ this :
  nodeOk selfId this -> nodeOk selfId (set_successor succ this).
Proof.
  intros Hok. unfold set_successor.
  set (cut := withSuccessorList this (spliceOut (successorList this) (_successor this))).
  assert (Hcut : nodeOk selfId cut) by by apply nodeOk_spliceOut.
  set (this1 := withDead (with_successor cut succ) _).
  assert (Hthis1 : nodeOk selfId this1).
  { destruct Hcut as (Hid & Hst & Hkeys & Hlast & Hlen & Hnodup & Hsorted & _).
    by repeat split. }
  destruct (negb _); [by apply nodeOk_updateSuccesorsList | done].
Qed.

Lemma nodeOk_set_predecessor selfId p this :
  nodeOk selfId this -> nodeOk selfId (set_predecessor p this).
Proof.
  intros (Hid & Hst & Hkeys & Hlast & Hlen & Hnodup & Hsorted & _).
  by repeat split.
Qed.

Lemma nodeOk_stabilize selfId comm this :
  nodeOk selfId this -> nodeOk selfId (after (stabilize comm this)).
Proof.
  intros Hok.
  assert (Hround : nodeOk selfId (after (stabilizeRound comm this))).
  { pose proof (stabilizeRound_cases comm this) as Hcases. simpl in Hcases.
    destruct (commGetPredecessor comm this (successor this)) as [preId|];
      [|by rewrite Hcases].
    set (this1 := match preId with Some p => _ | None => _ end) in *.
    assert (Hthis1 : nodeOk selfId this1).
    { subst this1. destruct preId as [p|]; [|done].
      destruct (_ && _); [by apply nodeOk_set_successor | done]. }
    destruct (commNotify comm this1 _ _) as [[]|]; [|by rewrite Hcases].
    destruct (commGetSuccessorsList comm this1 _) as [l|]; rewrite Hcases;
      [by apply nodeOk_updateSuccesorsList | done]. }
  unfold stabilize, bind, self; simpl.
  destruct (successor this =? id this); [done|].
  unfold tryCatch.
  destruct (stabilizeRound comm this) as [[[[]|] this1] calls];
    unfold after in *; simpl in *; [done|].
  by apply nodeOk_set_successor, nodeOk_spliceOut.
Qed.

Lemma nodeOk_joinNode selfId comm target this :
  nodeOk selfId this -> nodeOk selfId (after (joinNode comm target this)).
Proof.
  intros Hok. unfold joinNode, bind, self, await, update, after; simpl.
  destruct (commFindSuccessorForId comm this target (id this)); simpl;
    [by apply nodeOk_set_successor | done].
Qed.

Lemma nodeOk_notify selfId x this :
  nodeOk selfId this -> nodeOk selfId (notify x this).
Proof.
  intros Hok. unfold notify.
  destruct (_ || _); [by apply nodeOk_set_predecessor | done].
Qed.

Lemma nodeOk_checkPredecessor selfId comm this :
  nodeOk selfId this -> nodeOk selfId (after (checkPredecessor comm this)).
Proof.
  intros Hok. unfold checkPredecessor, bind, self, after; simpl.
  destruct (predecessor this) as [p|]; simpl; [|done].
  destruct (negb (p =? 0)); simpl; [|done].
  unfold tryCatch, await, update; simpl.
  destruct (commPing comm this p); simpl;
    [done | by apply nodeOk_set_predecessor].
Qed.

(** One resumption of the generator with the counter on a finger: the entry
at the counter keeps its key and takes the answer of the lookup as its node;
nothing else is written. *)
Lemma fixFingersStep_result comm (c : Z) (this : Node) :
  0 <= c < Z.of_nat (length (fingers this)) ->
  exists f answer calls,
    fingers this !! Z.to_nat c = Some f
    /\ fixFingersStep comm (Num c) this
       = (Return (rem (c + 1) (Z.of_nat (length (fingers this)) - 1)),
          withFingers this (<[Z.to_nat c := mkFinger (key f) answer]> (fingers this)),
          calls)
    /\ findSuccessorForKey comm (id this + 2 ^ c) this = (Return answer, this, calls).
Proof.
  intros Hc. unfold fixFingersStep.
  destruct (Z.ltb_spec c 0) as [?|_]; [lia|].
  unfold bind at 1. unfold self at 1. simpl.
  unfold bind at 1.
  destruct (findSuccessorForKey_returns comm (id this + 2 ^ c) this)
    as (answer & calls & ->).
  unfold bind at 1. unfold self at 1. simpl.
  destruct (lookup_lt_is_Some_2 (fingers this) (Z.to_nat c)) as [f Hf]; [lia|].
  rewrite Hf. unfold bind, update, self, ret; simpl.
  rewrite length_insert. exists f, answer, calls. split; [done|].
  by rewrite !app_nil_r.
Qed.

(** With the counter past the table the lookup is still made, and the
assignment to the missing entry throws. *)
Lemma fixFingersStep_past comm (c : Z) (this : Node) :
  Z.of_nat (length (fingers this)) <= c ->
  exists calls, fixFingersStep comm (Num c) this = (Throw, this, calls).
Proof.
  intros Hc. unfold fixFingersStep.
  destruct (Z.ltb_spec c 0) as [?|_]; [lia|].
  unfold bind at 1. unfold self at 1. simpl.
  unfold bind at 1.
  destruct (findSuccessorForKey_returns comm (id this + 2 ^ c) this)
    as (answer & calls & ->).
  unfold bind at 1. unfold self at 1. simpl.
  rewrite lookup_ge_None_2 by lia. unfold throw. by eexists.
Qed.

Lemma nodeOk_fixFingers selfId comm (c : Z) (this : Node) :
  nodeOk selfId this -> 0 <= c < Z.of_nat KEY_BITS - 1 ->
  exists this' calls,
    fixFingersStep comm (Num c) this
    = (Return (Num ((c + 1) `mod` (Z.of_nat KEY_BITS - 1))), this', calls)
    /\ nodeOk selfId this'.
Proof.
  intros (Hid & Hst & Hkeys & Hlast & Hlen & Hnodup & Hsorted & Hdead) Hc.
  assert (Hfingers : length (fingers this) = KEY_BITS).
  { apply (f_equal length) in Hkeys. rewrite !length_fmap in Hkeys.
    rewrite Hkeys. unfold createFingerTable, shell.
    by rewrite length_imap, length_replicate. }
  destruct (fixFingersStep_result comm c this)
    as (f & answer & calls & Hf & Hstep & _).
  { rewrite Hfingers. lia. }
  rewrite Hfingers in Hstep.
  eexists _, calls. split.
  { rewrite Hstep. unfold rem.
    destruct (Z.eqb_spec (Z.of_nat KEY_BITS - 1) 0) as [Hzero|_];
      [vm_compute in Hzero; discriminate|].
    rewrite Z.rem_mod_nonneg; [done | lia | vm_compute; reflexivity]. }
  unfold nodeOk. split_and!; try done.
  - cbn [fingers withFingers]. rewrite list_fmap_insert. cbn [key].
    rewrite <- Hkeys. apply list_insert_id. by rewrite list_lookup_fmap, Hf.
  - cbn [fingers withFingers]. rewrite list_lookup_insert_ne; [done|].
    assert (Z.of_nat (KEY_BITS - 1) = Z.of_nat KEY_BITS - 1) by (vm_compute; reflexivity).
    lia.
Qed.

(** X21: one tick of [fixFingers] with the counter on an entry of the table
looks up the key [id + 2^counter] (not reduced modulo the ring size),
stores the answer as the node of that entry, keeps the entry's key and
writes nothing else; with the counter past the table, negative or [NaN]
the tick throws and the node is as it was. *)
Theorem fixFingersStep_writes comm (counter : Number) (this : Node) :
  let r := fixFingersStep comm counter this in
  match counter with
  | Num c =>
      if (0 <=? c) && (c <? Z.of_nat (length (fingers this))) then
        exists f answer,
          fingers this !! Z.to_nat c = Some f
          /\ completion (findSuccessorForKey comm (id this + 2 ^ c) this)
             = Return answer
          /\ completion r
             = Return (rem (c + 1) (Z.of_nat (length (fingers this)) - 1))
          /\ after r
             = withFingers this
                 (<[Z.to_nat c := mkFinger (key f) answer]> (fingers this))
      else completion r = Throw /\ after r = this
  | NaN => r = (Throw, this, [])
  end.
Proof.
  intros r. subst r. destruct counter as [c|]; [|done].
  destruct (Z.leb_spec 0 c) as [Hc0|Hc0]; cbn [andb].
  - destruct (Z.ltb_spec c (Z.of_nat (length (fingers this)))) as [Hc|Hc].
    + destruct (fixFingersStep_result comm c this)
        as (f & answer & calls & Hf & -> & ->); [lia|].
      by exists f, answer.
    + by destruct (fixFingersStep_past comm c this Hc) as [calls ->].
  - unfold fixFingersStep. by destruct (Z.ltb_spec c 0) as [_|?]; [|lia].
Qed.

(** Every operation keeps both invariants. *)
Lemma perform_ok selfId (st : Instance) (op : Op) :
  nodeOk selfId st.1 -> generatorOk st.2 ->
  nodeOk selfId (perform st op).1 /\ generatorOk (perform st op).2.
Proof.
  intros Hnode Hgen. destruct op as [comm t|comm|x|comm|comm|val]; simpl.
  - split; [by apply nodeOk_joinNode | done].
  - split; [by apply nodeOk_stabilize | done].
  - split; [by apply nodeOk_notify | done].
  - split; [by apply nodeOk_checkPredecessor | done].
  - destruct Hgen as (c & Hgen & Hc). rewrite Hgen.
    destruct (nodeOk_fixFingers selfId comm c st.1 Hnode Hc)
      as (this' & calls & -> & Hok).
    simpl. split; [done|]. eexists. split; [done|].
    apply Z.mod_pos_bound. vm_compute. reflexivity.
  - split; [|done].
    destruct Hnode as (Hid & Hst & Hkeys & Hlast & Hlen & Hnodup & Hsorted & Hdead).
    by repeat split.
Qed.

Lemma history_ok selfId succ ops :
  nodeOk selfId (history selfId succ ops).1
  /\ generatorOk (history selfId succ ops).2.
Proof.
  unfold history.
  assert (Hstart : nodeOk selfId (new selfId succ, Some fixFingersStart).1
                   /\ generatorOk (new selfId succ, Some fixFingersStart).2).
  { split; [apply nodeOk_new|]. exists 0. split; [done|]. vm_compute.
    split; [discriminate | reflexivity]. }
  revert Hstart. generalize (new selfId succ, Some fixFingersStart).
  induction ops as [|op rest IH]; intros st [Hnode Hgen]; simpl; [done|].
  apply IH. by apply perform_ok.
Qed.

(** X16: whatever is done to a node after its construction, its id is the
one it was created with, its storage is empty, and its finger table has
[KEY_BITS] entries whose keys are the ones computed at construction: no
method writes these. *)
Theorem history_keeps_identity (selfId : Id) (succ : option Id) (ops : list Op) :
  let this := (history selfId succ ops).1 in
  id this = selfId
  /\ storage this = ∅
  /\ length (fingers this) = KEY_BITS
  /\ (forall j f, fingers this !! j = Some f -> key f = generateFingerId selfId j).
Proof.
  intros this.
  destruct (history_ok selfId succ ops) as [(Hid & Hst & Hkeys & _) _].
  fold this in Hid, Hst, Hkeys. split; [done|]. split; [done|]. split.
  - apply (f_equal length) in Hkeys. rewrite !length_fmap in Hkeys.
    rewrite Hkeys. unfold createFingerTable, shell.
    by rewrite length_imap, length_replicate.
  - intros j f Hf.
    assert (Hj : (key <$> fingers this) !! j = Some (key f))
      by by rewrite list_lookup_fmap, Hf.
    rewrite Hkeys, list_lookup_fmap in Hj.
    unfold createFingerTable in Hj. rewrite list_lookup_imap in Hj.
    destruct (shell KEY_BITS !! j); simpl in Hj; [|done].
    by injection Hj as <-.
Qed.

(** X17: in every state a node can reach, the successor list has at most
three entries, no id twice, and is in the comparator's order (ids above
the node's own first, each group increasing). *)
Theorem history_successorList (selfId : Id) (succ : option Id) (ops : list Op) :
  let l := successorList (history selfId succ ops).1 in
  (length l <= MAX_SUCCESSORS_LIST_LENGTH)%nat
  /\ NoDup l
  /\ StronglySorted (before selfId) l.
Proof.
  intros l.
  by destruct (history_ok selfId succ ops)
    as [(_ & _ & _ & _ & Hlen & Hnodup & Hsorted & _) _].
Qed.

(** X18: the [dead] flag is never set on a node that has a successor other
than itself or a non-zero predecessor: in every reachable state [dead]
implies [successor == id] and a predecessor that is absent or 0. *)
Theorem history_dead_sound (selfId : Id) (succ : option Id) (ops : list Op) :
  let this := (history selfId succ ops).1 in
  dead this = true ->
  successor this = id this /\ truthy (predecessor this) = false.
Proof.
  intros this Hdead.
  destruct (history_ok selfId succ ops) as [(_ & _ & _ & _ & _ & _ & _ & Hsound) _].
  specialize (Hsound Hdead). unfold isDead in Hsound.
  apply andb_true_iff in Hsound as [Hsucc Hpred].
  split; [by apply Z.eqb_eq | by apply negb_true_iff].
Qed.

(** X18 on node 10 that joined through 40 and then lost it. *)
Lemma history_dead_sound_witness :
  successor (history 10 None [JoinNode node40Answers 40; Stabilize unreachable]).1
  = 10.
Proof.
  assert (Hdead : dead (history 10 None
                          [JoinNode node40Answers 40; Stabilize unreachable]).1
                  = true) by reflexivity.
  apply (history_dead_sound 10 None
           [JoinNode node40Answers 40; Stabilize unreachable] Hdead).
Defined.

(** X19: on a constructed node the [fixFingers] generator never ends: in
every reachable state it is suspended with a counter between 0 and
[KEY_BITS - 2], so the next tick returns whatever the transport answers; and
the last finger still points to the node itself, as at construction. *)
Theorem history_fixFingers_alive (selfId : Id) (succ : option Id) (ops : list Op) :
  let st := history selfId succ ops in
  (exists c, st.2 = Some (Num c) /\ 0 <= c < Z.of_nat KEY_BITS - 1
             /\ forall comm, completion (fixFingersStep comm (Num c) st.1)
                             = Return (Num ((c + 1) `mod` (Z.of_nat KEY_BITS - 1))))
  /\ fingers st.1 !! (KEY_BITS - 1)%nat
     = Some (mkFinger (generateFingerId selfId (KEY_BITS - 1)) selfId).
Proof.
  intros st.
  destruct (history_ok selfId succ ops) as [Hnode (c & Hgen & Hc)].
  fold st in Hnode, Hgen. split.
  - exists c. split; [done|]. split; [done|]. intros comm.
    by destruct (nodeOk_fixFingers selfId comm c st.1 Hnode Hc)
      as (this' & calls & -> & _).
  - by destruct Hnode as (_ & _ & _ & -> & _).
Qed.

End HistoryFacts.

(** ** Stopping the lifecycle *)

Section StopFacts.
Import Lifecycle.

Lemma loop_setLoop t l s : loop t (setLoop t l s) = l.
Proof. by destruct t. Qed.

(** X20: [stopLifecycle] only cancels timers that are pending.  A loop is
still live after the call exactly when it was awaiting its operation at
that moment, and such a loop arms a new timer as soon as the operation
resolves and runs again when that timer fires; calling [stopLifecycle]
again changes nothing more. *)
Theorem stopLifecycle_spares_awaiting (s : State) (t : Task) :
  (live (loop t (stopLifecycle s)) = true <-> loop t s = Awaiting)
  /\ (loop t s = Awaiting ->
      loop t (run (stopLifecycle s) [Resolved t; Fired t]) = Awaiting)
  /\ stopLifecycle (stopLifecycle s) = stopLifecycle s.
Proof.
  split; [|split].
  - destruct t; simpl; [destruct (stab s)|destruct (fing s)|destruct (pred s)];
      simpl; split; congruence.
  - intros Hawait.
    assert (Hstop : loop t (stopLifecycle s) = Awaiting).
    { destruct t; simpl in *; by rewrite Hawait. }
    unfold run; simpl. rewrite Hstop. rewrite loop_setLoop. apply loop_setLoop.
  - unfold stopLifecycle; simpl.
    by destruct (stab s), (fing s), (pred s).
Qed.

(** X20 on a node stopped right after it was started, while all three first
ticks were still awaiting: the stabilize loop goes on. *)
Lemma stopLifecycle_spares_awaiting_witness :
  loop Stab (run (stopLifecycle (startLifecycle initial).1)
                 [Resolved Stab; Fired Stab])
  = Awaiting.
Proof.
  apply (stopLifecycle_spares_awaiting (startLifecycle initial).1 Stab).
  reflexivity.
Defined.

End StopFacts.
